(** * The memcache socket adapter of thinkjs (src/adapter/socket/memcache.js)

    A shallow embedding of the adapter's protocol engine: the reply framer
    ([getHandleResult] and the [handle*] methods), the parse loop
    ([handleData]), the request queue ([callbacks]), the socket listeners
    installed by [connect] and the readiness promise [query] waits on.

    JavaScript strings are modelled as the list of their code units, taken
    here as 8-bit characters (the memcache text protocol is ASCII).
    JavaScript numbers that are positions or lengths are modelled as
    integers, with NaN and the two infinities kept apart. A number read
    from a string is the nearest double, as in JavaScript; sums of
    positions are exact, and a buffer is far shorter than 2^53 code units,
    so every comparison against a buffer length and every clamp to it
    gives what IEEE doubles give. *)

From Stdlib Require Import List ZArith Lia Bool Ascii String.
Import ListNotations.
Open Scope Z_scope.

(** ** The JavaScript primitives the adapter calls *)

Module JS.

Definition jsstring := list ascii.

(** A string literal as a JavaScript string. *)
Definition str (s : string) : jsstring := list_ascii_of_string s.

(** [s.length] *)
Definition length (s : jsstring) : Z := Z.of_nat (List.length s).

(** Values that flow through results and callbacks. *)
Inductive jsval :=
| JUndefined
| JNull
| JStr (s : jsstring).

(** Numbers: NaN, an integer, or an infinity ([Inf true] is +Infinity). *)
Inductive number :=
| NaN
| Num (z : Z)
| Inf (positive : bool).

(** [a + b] on numbers. *)
Definition add (a b : number) : number :=
  match a, b with
  | NaN, _ | _, NaN => NaN
  | Num x, Num y => Num (x + y)
  | Inf p, Num _ | Num _, Inf p => Inf p
  | Inf p, Inf q => if Bool.eqb p q then Inf p else NaN
  end.

(** [a > b]; false as soon as one side is NaN. *)
Definition gt (a b : number) : bool :=
  match a, b with
  | NaN, _ | _, NaN => false
  | Num x, Num y => x >? y
  | Inf p, Num _ => p
  | Num _, Inf p => negb p
  | Inf p, Inf q => p && negb q
  end.

(** ToBoolean on the values above: only a non-empty string is truthy. *)
Definition truthy (v : jsval) : bool :=
  match v with
  | JStr (_ :: _) => true
  | _ => false
  end.

(** Does [s] begin with [p]? *)
Fixpoint startsWith (s p : jsstring) {struct p} : bool :=
  match p with
  | [] => true
  | a :: p' =>
      match s with
      | [] => false
      | b :: s' => Ascii.eqb a b && startsWith s' p'
      end
  end.

(** Offset of the first occurrence of [p] in [s], if any. *)
Fixpoint search (s p : jsstring) : option nat :=
  if startsWith s p then Some O
  else match s with
       | [] => None
       | _ :: s' => option_map S (search s' p)
       end.

(** [s.indexOf(p)]: the first offset, or -1. *)
Definition indexOf (s p : jsstring) : Z :=
  match search s p with
  | Some i => Z.of_nat i
  | None => -1
  end.

(** ToIntegerOrInfinity of a number: NaN becomes 0. *)
Definition toInteger (n : number) : number :=
  match n with
  | NaN => Num 0
  | _ => n
  end.

(** Clamp a ToIntegerOrInfinity result between [lo] and [hi]. *)
Definition clamp (n : number) (lo hi : Z) : Z :=
  match toInteger n with
  | Num z => Z.min (Z.max z lo) hi
  | Inf true => hi
  | _ => lo
  end.

(** [s.substr(start, length)] (ECMA-262 B.2.2.1) for an integer [start];
    an omitted [length] is passed as [Inf true], which clamps to the size
    as the standard prescribes for undefined. *)
Definition substr (s : jsstring) (start : Z) (length' : number) : jsstring :=
  let size := length s in
  let intStart := if start <? 0 then Z.max (size + start) 0 else Z.min start size in
  let intLength := clamp length' 0 size in
  let intEnd := Z.min (intStart + intLength) size in
  firstn (Z.to_nat (intEnd - intStart)) (skipn (Z.to_nat intStart) s).

(** [s.substring(start)]: from the clamped start to the end. *)
Definition substring (s : jsstring) (start : number) : jsstring :=
  skipn (Z.to_nat (clamp start 0 (length s))) s.

(** [s.split(sep)] for a one-character separator. *)
Fixpoint split (s : jsstring) (sep : ascii) : list jsstring :=
  match s with
  | [] => [[]]
  | c :: s' =>
      if Ascii.eqb c sep then [] :: split s' sep
      else match split s' sep with
           | h :: t => (c :: h) :: t
           | [] => [[c]]
           end
  end.

(** Case mapping of one code unit; only the ASCII letters are mapped: the
    case mappings of the other 8-bit code units stay outside the ASCII
    letters or are longer than one unit, so no method name is affected. *)
Definition toUpperCase1 (c : ascii) : ascii :=
  let n := nat_of_ascii c in
  if ((97 <=? n) && (n <=? 122))%nat then ascii_of_nat (n - 32) else c.

Definition toLowerCase1 (c : ascii) : ascii :=
  let n := nat_of_ascii c in
  if ((65 <=? n) && (n <=? 90))%nat then ascii_of_nat (n + 32) else c.

Definition toUpperCase (s : jsstring) : jsstring := map toUpperCase1 s.
Definition toLowerCase (s : jsstring) : jsstring := map toLowerCase1 s.

(** White space and line terminators among the 8-bit code units. *)
Definition isWhiteSpace (c : ascii) : bool :=
  let n := nat_of_ascii c in
  ((9 <=? n) && (n <=? 13) || (n =? 32) || (n =? 160))%nat.

(** Value of a digit in a radix up to 16. *)
Definition digitValue (radix : Z) (c : ascii) : option Z :=
  let n := Z.of_nat (nat_of_ascii c) in
  let v := if (48 <=? n) && (n <=? 57) then Some (n - 48)
           else if (97 <=? n) && (n <=? 102) then Some (n - 87)
           else if (65 <=? n) && (n <=? 70) then Some (n - 55)
           else None in
  match v with
  | Some d => if d <? radix then Some d else None
  | None => None
  end.

(** Longest prefix of radix digits, most significant first, and the rest. *)
Fixpoint takeDigits (radix : Z) (s : jsstring) : list Z * jsstring :=
  match s with
  | [] => ([], [])
  | c :: s' =>
      match digitValue radix c with
      | Some d => let (ds, r) := takeDigits radix s' in (d :: ds, r)
      | None => ([], s)
      end
  end.

Definition digitsValue (radix : Z) (ds : list Z) : Z :=
  fold_left (fun acc d => acc * radix + d) ds 0.

Fixpoint trimStart (s : jsstring) : jsstring :=
  match s with
  | c :: s' => if isWhiteSpace c then trimStart s' else s
  | [] => []
  end.

Definition trim (s : jsstring) : jsstring :=
  rev (trimStart (rev (trimStart s))).

(** A leading sign: its factor and what follows. *)
Definition takeSign (s : jsstring) : Z * jsstring :=
  match s with
  | "-"%char :: s' => (-1, s')
  | "+"%char :: s' => (1, s')
  | _ => (1, s)
  end.

(** Strip [0x] or [0X]. *)
Definition hexPrefix (s : jsstring) : option jsstring :=
  match s with
  | "0"%char :: x :: s' =>
      if Ascii.eqb x "x" || Ascii.eqb x "X" then Some s' else None
  | _ => None
  end.

(** [a / b] rounded to the nearest integer, a tie to the even one. *)
Definition roundHalfEven (a b : Z) : Z :=
  let q := a / b in
  let r := a mod b in
  if 2 * r <? b then q
  else if b <? 2 * r then q + 1
  else if Z.even q then q else q + 1.

(** The integer part of the Number value for the rational [n / d], with
    [0 <= n] and [0 < d]: the value is the nearest double, a tie going to
    the even significand, and infinite from 2^1024. [e] is the binary
    exponent of [n / d] and [p] that of the last place of its double. *)
Definition numberValue (n d : Z) : number :=
  if n =? 0 then Num 0
  else
    let e0 := Z.log2 n - Z.log2 d in
    let e := if (if 0 <=? e0 then d * 2 ^ e0 <=? n else d <=? n * 2 ^ (- e0))
             then e0 else e0 - 1 in
    let p := Z.max e (-1022) - 52 in
    if 0 <=? p then
      let v := roundHalfEven n (d * 2 ^ p) * 2 ^ p in
      if 2 ^ 1024 <=? v then Inf true else Num v
    else Num (roundHalfEven (n * 2 ^ (- p)) d / 2 ^ (- p)).

(** A number with the sign of a literal put on it. *)
Definition signed (sign : Z) (x : number) : number :=
  match x with
  | Num z => Num (sign * z)
  | Inf _ => Inf (0 <? sign)
  | NaN => NaN
  end.

(** [parseInt(string)] with the radix omitted (ECMA-262 19.2.5). *)
Definition parseInt (s : jsstring) : number :=
  let (sign, s1) := takeSign (trimStart s) in
  let (radix, s2) := match hexPrefix s1 with
                     | Some r => (16, r)
                     | None => (10, s1)
                     end in
  match takeDigits radix s2 with
  | ([], _) => NaN
  | (ds, _) => signed sign (numberValue (digitsValue radix ds) 1)
  end.

(** [parseInt(v)] on a value: the argument goes through ToString first,
    and neither [undefined] nor [null] starts with a digit. *)
Definition parseIntOf (v : jsval) : number :=
  match v with
  | JStr s => parseInt s
  | JUndefined => parseInt (str "undefined")
  | JNull => parseInt (str "null")
  end.

(** [parseInt(n, 10)] on an integer-valued number: ToString gives the
    decimal numeral of [n] (for |n| < 10^21), which is read back whole. *)
Definition parseIntNum (n : Z) : number := Num n.

(** A non-decimal literal [0b..], [0o..], [0x..]: its radix and digits. *)
Definition radixPrefix (s : jsstring) : option (Z * jsstring) :=
  match s with
  | "0"%char :: x :: s' =>
      if Ascii.eqb x "x" || Ascii.eqb x "X" then Some (16, s')
      else if Ascii.eqb x "o" || Ascii.eqb x "O" then Some (8, s')
      else if Ascii.eqb x "b" || Ascii.eqb x "B" then Some (2, s')
      else None
  | _ => None
  end.

(** An exponent part [e±ddd] that ends the literal. *)
Definition exponentPart (s : jsstring) : option Z :=
  match s with
  | [] => Some 0
  | c :: s' =>
      if Ascii.eqb c "e" || Ascii.eqb c "E" then
        let (sign, s1) := takeSign s' in
        match takeDigits 10 s1 with
        | ((_ :: _) as ds, []) => Some (sign * digitsValue 10 ds)
        | _ => None
        end
      else None
  end.

(** The decimal literal [ddd.ddd e±ddd]: the integer part of its Number
    value. *)
Definition decimalLiteral (s : jsstring) : number :=
  let (intDigits, s1) := takeDigits 10 s in
  let (fracDigits, s2) :=
    match s1 with
    | "."%char :: s' => takeDigits 10 s'
    | _ => ([], s1)
    end in
  match intDigits ++ fracDigits, exponentPart s2 with
  | (_ :: _) as ds, Some e =>
      let m := digitsValue 10 ds in
      let e' := e - Z.of_nat (List.length fracDigits) in
      if e' <? 0 then numberValue m (10 ^ (- e'))
      else numberValue (m * 10 ^ e') 1
  | _, _ => NaN
  end.

(** ToIntegerOrInfinity(ToNumber(string)): the string numeric literal
    grammar of ECMA-262 7.1.4.1, its value rounded to the nearest double
    and then truncated. *)
Definition toIntegerOfString (s : jsstring) : number :=
  let t := trim s in
  match t with
  | [] => Num 0
  | _ =>
      match radixPrefix t with
      | Some (radix, ds) =>
          match takeDigits radix ds with
          | ((_ :: _) as vs, []) => numberValue (digitsValue radix vs) 1
          | _ => Num 0
          end
      | None =>
          let (sign, u) := takeSign t in
          if list_eq_dec ascii_dec u (str "Infinity") then Inf (0 <? sign)
          else match decimalLiteral u with
               | NaN => Num 0
               | x => signed sign x
               end
      end
  end.

(** The [length] argument of [substr] as the code passes it: a string
    taken out of an array, or undefined when the index is out of range. *)
Definition lengthArg (v : option jsstring) : number :=
  match v with
  | Some s => toIntegerOfString s
  | None => Inf true
  end.

End JS.

Import JS.

(** ** The adapter *)

(** Line break (line 6). *)
Definition CRLF : jsstring := ["013"; "010"]%char.
Definition CRLF_LENGTH : Z := length CRLF.

(** Error messages (line 8). *)
Definition ERRORS : list jsstring :=
  [str "ERROR"; str "NOT_FOUND"; str "CLIENT_ERROR"; str "SERVER_ERROR"].

(** Read line data (lines 12-18). *)
Definition readLine (string : jsstring) : jsstring :=
  let pos := indexOf string CRLF in
  if pos >? -1 then substr string 0 (Num pos) else string.

(** What a [handle*] method hands back to [handleData]: [false], an array
    [[value, pos, error]], or no value at all because the call raised. *)
Inductive result :=
| RFalse
| RArr (value : jsval) (pos : number) (error : jsval)
| RThrow.

(** An entry of [this.callbacks]: the reply type given to [query] and the
    completion callback, named by the number of the query it settles. *)
Record pending := { type : jsval; callback : nat }.

(** How a query's deferred is settled by its callback (line 212). *)
Inductive settlement :=
| Resolved (value : jsval)
| Rejected (error : jsval).

Definition invoke (error value : jsval) : settlement :=
  if truthy error then Rejected error else Resolved value.

(** The socket returned by [net.createConnection(port, host)]: the
    arguments it was opened with and what has been written to it. *)
Record Socket := {
  remotePort : Z;
  remoteHost : jsval;
  written : list jsstring
}.

Definition createConnection (port : Z) (host : jsval) : Socket :=
  {| remotePort := port; remoteHost := host; written := [] |}.

(** Events the adapter emits with [this.emit]. *)
Inductive event :=
| EvConnect
| EvClose
| EvTimeout
| EvClientError (cause : jsstring).

(** The instance: the properties [init] assigns, the events emitted so
    far and the callbacks invoked so far, oldest first. *)
Record Connection := {
  port : Z;
  hostname : jsstring;
  buffer : jsstring;
  callbacks : list pending;
  handle : option Socket;
  emitted : list event;
  settled : list (nat * settlement)
}.

(** How a method or listener ends: normally, or by an exception that
    leaves it at once; either way with the instance as it then is. *)
Inductive outcome :=
| Done (c : Connection)
| Threw (c : Connection)
| OutOfFuel.

(** [init(port, hostname)] (lines 40-47); an argument left out is [None].
    [port || 11211] also replaces 0, [hostname || '127.0.0.1'] also the
    empty string. *)
Definition init (port' : option Z) (hostname' : option jsstring) : Connection :=
  {| port := match port' with
             | Some p => if p =? 0 then 11211 else p
             | None => 11211
             end;
     hostname := match hostname' with
                 | Some ((_ :: _) as h) => h
                 | _ => str "127.0.0.1"
                 end;
     buffer := [];
     callbacks := [];
     handle := None;
     emitted := [];
     settled := [] |}.

(** [this.host] as [connect] reads it: the class assigns [port],
    [hostname], [buffer], [callbacks], [handle] and [promise], never
    [host], so the read gives undefined. *)
Definition host (c : Connection) : jsval := JUndefined.

(** [connect()] (lines 52-57, 100-101): nothing when a handle exists,
    otherwise a socket opened with [this.port] and [this.host]. *)
Definition connect (c : Connection) : Connection :=
  match handle c with
  | Some _ => c
  | None =>
      {| port := port c; hostname := hostname c; buffer := buffer c;
         callbacks := callbacks c;
         handle := Some (createConnection (port c) (host c));
         emitted := emitted c; settled := settled c |}
  end.

(** The method names the adapter answers to: those of the class (lines
    30-340) and those it inherits from EventEmitter. *)
Definition methods : list string :=
  ["init"; "connect"; "handleData"; "getHandleResult"; "handleError";
   "handleGet"; "handleSimple"; "handleVersion"; "query"; "get"; "store";
   "delete"; "version"; "increment"; "decrement"; "set"; "add"; "replace";
   "append"; "prepend"; "close";
   "setMaxListeners"; "getMaxListeners"; "emit"; "addListener"; "on";
   "prependListener"; "once"; "prependOnceListener"; "removeListener"; "off";
   "removeAllListeners"; "listeners"; "rawListeners"; "listenerCount";
   "eventNames"]%string.

Definition responds_to (name : string) : bool :=
  existsb (String.eqb name) methods.

(** The ['connect'] listener (lines 58-63). It is an arrow function, so
    [this] is the adapter: [this.setTimeout(0)] and [this.setNoDelay()]
    call methods of the adapter, and calling a name it does not answer to
    raises TypeError, before the event is emitted and the readiness promise
    fulfilled. *)
Definition on_connect (c : Connection) : outcome :=
  if responds_to "setTimeout" && responds_to "setNoDelay" then
    Done {| port := port c; hostname := hostname c; buffer := buffer c;
            callbacks := callbacks c; handle := handle c;
            emitted := emitted c ++ [EvConnect]; settled := settled c |}
  else Threw c.

(** Handle error (lines 153-156). *)
Definition handleError (buffer : jsstring) : result :=
  let line := readLine buffer in
  RArr JNull (Num (length line + CRLF_LENGTH)) (JStr line).

(** Handle get (lines 162-181). The array has two elements, so the error
    read from index 2 is undefined. *)
Definition handleGet (buffer : jsstring) : result :=
  let value := JNull in
  let end' := 3 in
  if indexOf buffer (str "END") =? 0 then
    RArr value (Num (end' + CRLF_LENGTH)) JUndefined
  else if (indexOf buffer (str "VALUE") =? 0)
          && (indexOf buffer (str "END") >? -1) then
    let firstPos := indexOf buffer CRLF + CRLF_LENGTH in
    let endPos := indexOf buffer (str "END") in
    let resultLen := endPos - firstPos - CRLF_LENGTH in
    let value := substr buffer firstPos (Num resultLen) in
    RArr (JStr value)
         (add (add (add (add (Num firstPos) (parseIntNum resultLen))
                        (Num CRLF_LENGTH)) (Num end')) (Num CRLF_LENGTH))
         JUndefined
  else
    let firstPos := indexOf buffer CRLF + CRLF_LENGTH in
    let resultLen := nth_error (split (substr buffer 0 (Num firstPos)) " ") 3 in
    let value := substr buffer firstPos (lengthArg resultLen) in
    RArr (JStr value)
         (add (add (add (add (Num firstPos)
                             (parseIntOf match resultLen with
                                         | Some s => JStr s
                                         | None => JUndefined
                                         end))
                        (Num CRLF_LENGTH)) (Num end')) (Num CRLF_LENGTH))
         JUndefined.

(** Handle simple data (lines 187-190). *)
Definition handleSimple (buffer : jsstring) : result :=
  let line := readLine buffer in
  RArr (JStr line) (Num (length line + CRLF_LENGTH)) JNull.

(** Handle version (lines 196-201); 8 is the length of 'VERSION '. *)
Definition handleVersion (buffer : jsstring) : result :=
  let pos := indexOf buffer CRLF in
  let value := substr buffer 8 (Num (pos - 8)) in
  RArr (JStr value) (Num (pos + CRLF_LENGTH)) JNull.

(** [type[0].toUpperCase() + type.slice(1).toLowerCase()] (line 143) on a
    non-empty string. *)
Definition ucfirst (type : jsstring) : jsstring :=
  match type with
  | c :: rest => toUpperCase [c] ++ toLowerCase rest
  | [] => []
  end.

(** [this['handle' + ucfirst](buffer)] (line 144). The instance has five
    methods whose names start with [handle]. A name that is none of them
    reads as undefined and the call raises TypeError. [handleData] takes no
    argument and re-enters this very lookup on an unchanged instance, so
    the calls nest until the stack is exhausted and RangeError is raised. *)
Definition dispatch (ucfirst' : jsstring) (buffer : jsstring) : result :=
  if list_eq_dec ascii_dec ucfirst' (str "Get") then handleGet buffer
  else if list_eq_dec ascii_dec ucfirst' (str "Simple") then handleSimple buffer
  else if list_eq_dec ascii_dec ucfirst' (str "Version") then handleVersion buffer
  else if list_eq_dec ascii_dec ucfirst' (str "Error") then handleError buffer
  else RThrow.

(** Get handle result (lines 131-147). The loop over [ERRORS] returns at
    the first message found anywhere in the buffer. *)
Definition getHandleResult (callbacks : list pending) (buffer : jsstring) : result :=
  if indexOf buffer CRLF =? -1 then RFalse
  else if existsb (fun item => indexOf buffer item >? -1) ERRORS then
    handleError buffer
  else
    match callbacks with
    | callback :: _ =>
        match type callback with
        | JStr ((_ :: _) as t) => dispatch (ucfirst t) buffer
        | _ => RFalse
        end
    | [] => RFalse
    end.

Definition with_buffer (c : Connection) (b : jsstring) : Connection :=
  {| port := port c; hostname := hostname c; buffer := b;
     callbacks := callbacks c; handle := handle c;
     emitted := emitted c; settled := settled c |}.

(** [let callback = this.callbacks.shift(); if (callback &&
    callback.callback) callback.callback(error, value)]: the head leaves
    the queue and its callback is invoked; on an empty queue nothing. *)
Definition shift_and_call (c : Connection) (error value : jsval) : Connection :=
  match callbacks c with
  | [] => c
  | cb :: rest =>
      {| port := port c; hostname := hostname c; buffer := buffer c;
         callbacks := rest; handle := handle c; emitted := emitted c;
         settled := settled c ++ [(callback cb, invoke error value)] |}
  end.

(** One turn of the [while] loop of [handleData] (lines 109-123), entered
    with a non-empty buffer. *)
Inductive turn :=
| Break
| Raise
| Continue (c : Connection).

Definition handleData_turn (c : Connection) : turn :=
  match getHandleResult (callbacks c) (buffer c) with
  | RFalse => Break
  | RThrow => Raise
  | RArr value pos error =>
      if gt pos (Num (length (buffer c))) then Break
      else Continue (shift_and_call
                       (with_buffer c (substring (buffer c) pos)) error value)
  end.

(** Parse data (lines 107-125), the loop unrolled at most [fuel] times. *)
Fixpoint handleData_loop (fuel : nat) (c : Connection) : outcome :=
  match fuel with
  | O => OutOfFuel
  | S fuel' =>
      if length (buffer c) >? 0 then
        match handleData_turn c with
        | Break => Done c
        | Raise => Threw c
        | Continue c' => handleData_loop fuel' c'
        end
      else Done c
  end.

(** Every turn that continues shortens the buffer or the queue, so this
    many turns are enough (shown below). *)
Definition turns (c : Connection) : nat :=
  S (List.length (buffer c) + List.length (callbacks c)).

Definition handleData (c : Connection) : outcome :=
  handleData_loop (turns c) c.

(** The ['data'] listener (lines 64-67). *)
Definition on_data (data : jsstring) (c : Connection) : outcome :=
  handleData (with_buffer c (buffer c ++ data)).

(** The loop shared by the ['end'] and ['error'] listeners (lines 69-74,
    91-96): every queued callback, oldest first, is called with [kind]. *)
Fixpoint drain (kind : jsstring) (queue : list pending) : list (nat * settlement) :=
  match queue with
  | [] => []
  | cb :: rest => (callback cb, invoke (JStr kind) JUndefined) :: drain kind rest
  end.

(** The ['end'] listener (lines 68-76). *)
Definition on_end (c : Connection) : Connection :=
  {| port := port c; hostname := hostname c; buffer := buffer c;
     callbacks := []; handle := None; emitted := emitted c;
     settled := settled c ++ drain (str "CONNECTION_CLOSED") (callbacks c) |}.

(** The ['close'] listener (lines 77-80). *)
Definition on_close (c : Connection) : Connection :=
  {| port := port c; hostname := hostname c; buffer := buffer c;
     callbacks := callbacks c; handle := None;
     emitted := emitted c ++ [EvClose]; settled := settled c |}.

(** The ['timeout'] listener (lines 81-89). *)
Definition on_timeout (c : Connection) : Connection :=
  let c' := match callbacks c with
            | [] => c
            | _ :: _ => shift_and_call c (JStr (str "TIMEOUT")) JUndefined
            end in
  {| port := port c'; hostname := hostname c'; buffer := buffer c';
     callbacks := callbacks c'; handle := handle c';
     emitted := emitted c' ++ [EvTimeout]; settled := settled c' |}.

(** The ['error'] listener (lines 90-99). *)
Definition on_error (cause : jsstring) (c : Connection) : Connection :=
  {| port := port c; hostname := hostname c; buffer := buffer c;
     callbacks := []; handle := None;
     emitted := emitted c ++ [EvClientError cause];
     settled := settled c ++ drain (str "ERROR") (callbacks c) |}.

(** The function [query] registers on the readiness promise (lines
    214-217), as it runs once the promise is fulfilled: it appends the
    entry, then writes the command; without a handle the write raises,
    after the entry was appended. *)
Definition query_then (query : jsstring) (type' : jsval) (id : nat)
    (c : Connection) : outcome :=
  let queue := callbacks c ++ [{| type := type'; callback := id |}] in
  match handle c with
  | Some h =>
      Done {| port := port c; hostname := hostname c; buffer := buffer c;
              callbacks := queue;
              handle := Some {| remotePort := remotePort h;
                                remoteHost := remoteHost h;
                                written := written h ++ [query ++ CRLF] |};
              emitted := emitted c; settled := settled c |}
  | None =>
      Threw {| port := port c; hostname := hostname c; buffer := buffer c;
               callbacks := queue; handle := None;
               emitted := emitted c; settled := settled c |}
  end.

(** The command facade (lines 225-257): the command text and the reply
    type a method hands to [query]. *)
Definition get (key : jsstring) : jsstring * jsval :=
  (str "get " ++ key, JStr (str "get")).

Definition delete (key : jsstring) : jsstring * jsval :=
  (str "delete " ++ key, JStr (str "simple")).

Definition version : jsstring * jsval :=
  (str "version", JStr (str "version")).

(** Data events delivered one after the other. The adapter catches no
    exception, so a listener that raises ends the run. *)
Fixpoint feed (chunks : list jsstring) (c : Connection) : outcome :=
  match chunks with
  | [] => Done c
  | data :: rest =>
      match on_data data c with
      | Done c' => feed rest c'
      | o => o
      end
  end.

(** ** Replies on the wire

    What a memcache server sends back: one line (a status, a number, the
    version), the miss trailer, or a value block with its trailer. *)
Inductive reply :=
| Line (text : jsstring)
| Miss
| Hit (header data : jsstring).

Definition frame (r : reply) : jsstring :=
  match r with
  | Line text => text ++ CRLF
  | Miss => str "END" ++ CRLF
  | Hit header data => header ++ CRLF ++ data ++ CRLF ++ str "END" ++ CRLF
  end.

Definition stream (replies : list reply) : jsstring :=
  flat_map frame replies.

(** A reply is framed when its own terminator is the first one of its
    first line and, for a value block, the header starts with VALUE and
    the first END is the trailer. *)
Definition framed (r : reply) : bool :=
  match r with
  | Line text => indexOf (text ++ CRLF) CRLF =? length text
  | Miss => true
  | Hit header data =>
      startsWith header (str "VALUE")
      && (indexOf (header ++ CRLF) CRLF =? length header)
      && (indexOf (header ++ CRLF ++ data ++ CRLF ++ str "END") (str "END")
          =? length (header ++ CRLF ++ data ++ CRLF))
  end.

(** The byte length a header line declares, read the way [handleGet]
    reads it (lines 177 and 179): fourth field, through [parseInt]. *)
Definition declared (header : jsstring) : number :=
  parseIntOf match nth_error (split (header ++ CRLF) " ") 3 with
             | Some s => JStr s
             | None => JUndefined
             end.

(** The header of a value block declares enough when the length it
    declares is a number not below the length of the data in code units,
    as the count of the data's bytes is. *)
Definition declares_enough (r : reply) : bool :=
  match r with
  | Hit header data =>
      match declared header with
      | Num n => length data <=? n
      | _ => false
      end
  | _ => true
  end.

Definition is_type (type' : jsval) (name : string) : bool :=
  match type' with
  | JStr t => if list_eq_dec ascii_dec t (str name) then true else false
  | _ => false
  end.

(** The replies a request of the facade can get. *)
Definition accepts (type' : jsval) (r : reply) : bool :=
  match r with
  | Line _ => is_type type' "simple" || is_type type' "version"
  | Miss | Hit _ _ => is_type type' "get"
  end.

(** What a reply means for the request it answers. *)
Definition expected (type' : jsval) (r : reply) : settlement :=
  match r with
  | Line text =>
      if is_type type' "version" then Resolved (JStr (skipn 8 text))
      else Resolved (JStr text)
  | Miss => Resolved JNull
  | Hit _ data => Resolved (JStr data)
  end.

(** The queue and the replies match up one to one. *)
Fixpoint paired (queue : list pending) (replies : list reply) : bool :=
  match queue, replies with
  | [], [] => true
  | q :: queue', r :: replies' =>
      accepts (type q) r && framed r && paired queue' replies'
  | _, _ => false
  end.

Fixpoint settlements (queue : list pending) (replies : list reply)
  : list (nat * settlement) :=
  match queue, replies with
  | q :: queue', r :: replies' =>
      (callback q, expected (type q) r) :: settlements queue' replies'
  | _, _ => []
  end.

(** Does one of the error messages occur in the text? *)
Definition has_error (buffer : jsstring) : bool :=
  existsb (fun item => indexOf buffer item >? -1) ERRORS.

(** An error reply: a line in which one of the error messages occurs. *)
Definition is_error (r : reply) : bool :=
  match r with
  | Line text => has_error text
  | _ => false
  end.

(** A reply answers a request when it is framed and is either an error
    reply, which any request can get, or a reply to a request of that
    type. *)
Definition answers (type' : jsval) (r : reply) : bool :=
  framed r && (is_error r || accepts type' r).

Fixpoint answered (queue : list pending) (replies : list reply) : bool :=
  match queue, replies with
  | [], [] => true
  | q :: queue', r :: replies' => answers (type q) r && answered queue' replies'
  | _, _ => false
  end.

(** What a reply means for the request it answers, error replies
    included: an error reply rejects the request with its line. *)
Definition verdict (type' : jsval) (r : reply) : settlement :=
  if is_error r then
    match r with
    | Line text => Rejected (JStr text)
    | _ => expected type' r
    end
  else expected type' r.

Fixpoint verdicts (queue : list pending) (replies : list reply)
  : list (nat * settlement) :=
  match queue, replies with
  | q :: queue', r :: replies' =>
      (callback q, verdict (type q) r) :: verdicts queue' replies'
  | _, _ => []
  end.

(** [data] being the beginning of the stream of [replies]: every reply
    that has begun to arrive and is no error reply has no error message in
    it, nor behind it in the data. *)
Fixpoint orderly (replies : list reply) (data : jsstring) : bool :=
  match replies with
  | [] => true
  | r :: rest =>
      (is_error r || negb (has_error data))
      && orderly rest (skipn (List.length (frame r)) data)
  end.

(** The verdict of [handleData] on a result: leave the buffer alone. *)
Definition waits (buffer : jsstring) (r : result) : Prop :=
  match r with
  | RFalse => True
  | RArr _ pos _ => gt pos (Num (length buffer)) = true
  | RThrow => False
  end.

(** The instance after some turns of the loop: what is left of the
    buffer and of the queue, and the callbacks invoked meanwhile. *)
Definition advance (c : Connection) (b : jsstring) (queue : list pending)
    (done : list (nat * settlement)) : Connection :=
  {| port := port c; hostname := hostname c; buffer := b;
     callbacks := queue; handle := handle c; emitted := emitted c;
     settled := settled c ++ done |}.

(** The queue entries the functions of successive queries append, their
    callbacks numbered from [id]. *)
Fixpoint entries (queries : list (jsstring * jsval)) (id : nat) : list pending :=
  match queries with
  | [] => []
  | (_, type') :: rest => {| type := type'; callback := id |} :: entries rest (S id)
  end.

(** [data] is the beginning of replies that answer the requests of
    [queue], in their order, with headers that declare enough and no error
    message in or behind a reply that is no error reply. *)
Definition conforms (queue : list pending) (data : jsstring) : Prop :=
  exists replies rest,
    answered queue replies = true /\ forallb declares_enough replies = true
    /\ data ++ rest = stream replies /\ orderly replies data = true.

(** Running one step after another, as long as none raises. *)
Definition and_then (o : outcome) (next : Connection -> outcome) : outcome :=
  match o with
  | Done c => next c
  | _ => o
  end.

(** The callbacks invoked when a run ended normally. *)
Definition results (o : outcome) : option (list (nat * settlement)) :=
  match o with
  | Done c => Some (settled c)
  | _ => None
  end.

(** ** Sample data *)

(** A connection opened with the defaults, nothing sent or received. *)
Definition ready : Connection := connect (init None None).

Definition pending_get (id : nat) : pending :=
  {| type := JStr (str "get"); callback := id |}.

Definition pending_simple (id : nat) : pending :=
  {| type := JStr (str "simple"); callback := id |}.

(** A connection with the given bytes received and requests pending. *)
Definition receiving (b : jsstring) (queue : list pending) : Connection :=
  advance (with_buffer ready b) b queue [].

(** [VALUE k 0 5 / hello / END], the reply to [get k]. *)
Definition hello_reply : reply := Hit (str "VALUE k 0 5") (str "hello").

(** A value of seven bytes with a line break inside. *)
Definition two_lines_reply : reply :=
  Hit (str "VALUE k 0 7") (str "ab" ++ CRLF ++ str "cde").

(** A value of six bytes that contains the text END. *)
Definition friend_reply : reply := Hit (str "VALUE pal 0 6") (str "FRIEND").

(** ** The rest of the facade, and [close] *)

(** The character of a decimal digit. *)
Definition digitChar (d : Z) : ascii := ascii_of_nat (Z.to_nat (48 + d)).

(** Decimal digits of a number that is not negative, most significant
    first, put in front of [acc]; [fuel] bounds the number of digits. *)
Fixpoint digitsOf (fuel : nat) (n : Z) (acc : jsstring) : jsstring :=
  match fuel with
  | O => acc
  | S fuel' =>
      let acc' := digitChar (n mod 10) :: acc in
      if n <? 10 then acc' else digitsOf fuel' (n / 10) acc'
  end.

(** The integers every one of which is a JavaScript number. *)
Definition safe_integer (n : Z) : Prop := - 2 ^ 53 < n < 2 ^ 53.

(** ToString of a safe integer: the decimal numeral, after a minus sign
    when negative. Beyond the safe integers JavaScript writes the digits
    of the nearest double, and an exponent from 10^21; what is shown about
    numerals below is about safe integers. A number has no more decimal
    digits than binary ones, which is the fuel given. *)
Definition numberToString (n : Z) : jsstring :=
  if n <? 0 then "-"%char :: digitsOf (S (Z.to_nat (Z.log2 (- n)))) (- n) []
  else digitsOf (S (Z.to_nat (Z.log2 n))) n [].

(** [Buffer.byteLength(string)]: the length in UTF-8. A code unit below
    128 takes one byte and one from 128 to 2047 two; the code units of the
    strings modelled here end at 255. *)
Fixpoint byteLength (s : jsstring) : Z :=
  match s with
  | [] => 0
  | c :: s' => (if (nat_of_ascii c <? 128)%nat then 1 else 2) + byteLength s'
  end.

(** [parts.join(sep)] *)
Fixpoint join (parts : list jsstring) (sep : jsstring) : jsstring :=
  match parts with
  | [] => []
  | [part] => part
  | part :: rest => part ++ sep ++ join rest sep
  end.

(** The methods of the facade not given above (lines 236-330), under a
    name space of their own: [set] and [add] are taken. A lifetime, flags
    or step left out is [None]; values are strings. *)
Module Facade.

(** Store data (lines 236-242); [lifetime || 0] and [flags || 0]. *)
Definition store (key value type' : jsstring) (lifetime flags : option Z)
  : jsstring * jsval :=
  let lifetime := match lifetime with Some l => l | None => 0 end in
  let flags := match flags with Some f => f | None => 0 end in
  let length' := byteLength value in
  let query := join [type'; key; numberToString flags;
                     numberToString lifetime; numberToString length']
                 (str " ")
               ++ CRLF ++ value in
  (query, JStr (str "simple")).

(** Increment and decrement (lines 264-275); [step = 1] when left out. *)
Definition increment (key : jsstring) (step : option Z) : jsstring * jsval :=
  let step := match step with Some n => n | None => 1 end in
  (str "incr " ++ key ++ str " " ++ numberToString step, JStr (str "simple")).

Definition decrement (key : jsstring) (step : option Z) : jsstring * jsval :=
  let step := match step with Some n => n | None => 1 end in
  (str "decr " ++ key ++ str " " ++ numberToString step, JStr (str "simple")).

(** The five ways to store (lines 284-330). *)
Definition set (key value : jsstring) (lifetime flags : option Z) :=
  store key value (str "set") lifetime flags.

Definition add (key value : jsstring) (lifetime flags : option Z) :=
  store key value (str "add") lifetime flags.

Definition replace (key value : jsstring) (lifetime flags : option Z) :=
  store key value (str "replace") lifetime flags.

Definition append (key value : jsstring) (lifetime flags : option Z) :=
  store key value (str "append") lifetime flags.

Definition prepend (key value : jsstring) (lifetime flags : option Z) :=
  store key value (str "prepend") lifetime flags.

End Facade.

(** What a method of the facade hands to [query]. *)
Inductive from_facade : jsstring * jsval -> Prop :=
| facade_get key : from_facade (get key)
| facade_delete key : from_facade (delete key)
| facade_version : from_facade version
| facade_store key value type' lifetime flags :
    from_facade (Facade.store key value type' lifetime flags)
| facade_increment key step : from_facade (Facade.increment key step)
| facade_decrement key step : from_facade (Facade.decrement key step).

(** Close connect (lines 335-340). [readyState] is the state the socket
    reports; [handle.end()] asks it to shut down, and the handle is
    forgotten. *)
Definition close (readyState : jsstring) (c : Connection) : Connection :=
  match handle c with
  | Some _ =>
      if list_eq_dec ascii_dec readyState (str "open") then
        {| port := port c; hostname := hostname c; buffer := buffer c;
           callbacks := callbacks c; handle := None;
           emitted := emitted c; settled := settled c |}
      else c
  | None => c
  end.

(** How a callback called with this error line settles its query (line
    212): an empty line is falsy, so the query is resolved, with the
    value of an error result, null. *)
Definition error_settlement (line : jsstring) : settlement :=
  invoke (JStr line) JNull.

(** The queue's head can be dispatched on: it exists and its type is
    truthy. *)
Definition head_usable (queue : list pending) : bool :=
  match queue with
  | q :: _ => truthy (type q)
  | [] => false
  end.

(** The reply types for which the adapter has a handler, letter case
    aside. *)
Definition known_type (t : jsstring) : bool :=
  existsb (fun name => if list_eq_dec ascii_dec (ucfirst t) name then true else false)
    [str "Get"; str "Simple"; str "Version"; str "Error"].

(** The part of an instance the parse loop never writes. *)
Definition same_session (c c' : Connection) : Prop :=
  port c' = port c /\ hostname c' = hostname c
  /\ handle c' = handle c /\ emitted c' = emitted c.

(** The instance an outcome ends with, when the loop ended at all. *)
Definition final (o : outcome) : option Connection :=
  match o with
  | Done c | Threw c => Some c
  | OutOfFuel => None
  end.

(** The request could have been issued through the facade. *)
Definition facade_request (q : pending) : Prop :=
  exists r, from_facade r /\ type q = snd r.

(** A decimal digit. *)
Definition is_digit (d : Z) : Prop := 0 <= d < 10.

(** Lines, each with its terminator, one after the other. *)
Definition lines_text (lines : list jsstring) : jsstring :=
  stream (map Line lines).

(** The requests of a queue settled one by one with error lines, as far
    as both go. *)
Fixpoint error_settlements (queue : list pending) (lines : list jsstring)
  : list (nat * settlement) :=
  match queue, lines with
  | q :: queue', line :: lines' =>
      (callback q, error_settlement line) :: error_settlements queue' lines'
  | _, _ => []
  end.

(** The ['timeout'] listener run [n] times. *)
Definition timeouts (n : nat) (c : Connection) : Connection :=
  Nat.iter n on_timeout c.

(** ** The readiness promise and [query] *)

(** The function [query] registers with [this.promise.then] (lines
    214-217) closes over the command, the reply type and the callback. *)
Record reaction := {
  command : jsstring;
  reply_type : jsval;
  completion : nat
}.

(** The deferred [connect] makes for the socket it opens (line 56):
    pending, with the functions registered on its promise so far, oldest
    first, or fulfilled. Nothing in the adapter rejects it. *)
Inductive deferred :=
| Pending (reactions : list reaction)
| Fulfilled.

Definition reactions_of (d : deferred) : list reaction :=
  match d with
  | Pending reactions => reactions
  | Fulfilled => []
  end.

(** The adapter with the deferreds made so far, one for each socket
    opened, newest first: [this.promise] (line 100) is the promise of the
    first. *)
Record Adapter := {
  instance : Connection;
  deferreds : list deferred
}.

(** How a call of the adapter or a listener ends. *)
Inductive ended :=
| Returned (a : Adapter)
| Raised (a : Adapter).

Module Async.

(** [connect()] (lines 52-57, 100-101) with the deferred it makes. *)
Definition connect (a : Adapter) : Adapter :=
  match handle (instance a) with
  | Some _ => a
  | None => {| instance := connect (instance a);
               deferreds := Pending [] :: deferreds a |}
  end.

(** A registered function as the promise runs it: an exception in it
    rejects a promise that nobody holds, and the functions registered
    after it run all the same. *)
Definition run (r : reaction) (c : Connection) : Connection :=
  match query_then (command r) (reply_type r) (completion r) c with
  | Done c' | Threw c' => c'
  | OutOfFuel => c
  end.

(** [deferred.resolve()] (line 62) on the deferred of the socket opened
    [age] sockets ago: the functions registered run in the order of their
    registration. *)
Definition resolve (age : nat) (a : Adapter) : Adapter :=
  match nth_error (deferreds a) age with
  | Some (Pending reactions) =>
      {| instance := fold_left (fun c r => run r c) reactions (instance a);
         deferreds := firstn age (deferreds a)
                      ++ Fulfilled :: skipn (S age) (deferreds a) |}
  | _ => a
  end.

(** The ['connect'] listener of that socket (lines 58-63), with its last
    statement. *)
Definition on_connect (age : nat) (a : Adapter) : ended :=
  match on_connect (instance a) with
  | Done c => Returned (resolve age {| instance := c; deferreds := deferreds a |})
  | Threw c => Raised {| instance := c; deferreds := deferreds a |}
  | OutOfFuel => Raised a
  end.

(** Exec command (lines 208-219); [id] names the callback of line 211.
    On a pending promise the function waits; on a fulfilled one it runs
    before anything else happens; [then] of an undefined [this.promise]
    raises. *)
Definition query (query : jsstring) (type' : jsval) (id : nat) (a : Adapter)
  : ended :=
  let a := connect a in
  let r := {| command := query; reply_type := type'; completion := id |} in
  match deferreds a with
  | Pending reactions :: older =>
      Returned {| instance := instance a;
                  deferreds := Pending (reactions ++ [r]) :: older |}
  | Fulfilled :: _ =>
      Returned {| instance := run r (instance a); deferreds := deferreds a |}
  | [] => Raised a
  end.

End Async.

(** [new Memcache(port, hostname)] (lines 30-33). *)
Definition construct (port' : option Z) (hostname' : option jsstring) : Adapter :=
  {| instance := init port' hostname'; deferreds := [] |}.

(** What can happen to an adapter: a call of [query] (directly or through
    the facade) or of [close], or an event of one of its sockets. *)
Inductive action :=
| Query (query : jsstring) (type' : jsval) (id : nat)
| Close (readyState : jsstring)
| SocketConnect (age : nat)
| SocketData (data : jsstring)
| SocketEnd
| SocketClose
| SocketTimeout
| SocketError (cause : jsstring).

Definition state (e : ended) : Adapter :=
  match e with
  | Returned a | Raised a => a
  end.

Definition lift (f : Connection -> Connection) (a : Adapter) : Adapter :=
  {| instance := f (instance a); deferreds := deferreds a |}.

(** One call or event. The adapter catches no exception: where a method
    or listener raises, the instance stays as the exception left it. *)
Definition act (x : action) (a : Adapter) : Adapter :=
  match x with
  | Query query type' id => state (Async.query query type' id a)
  | Close readyState => lift (close readyState) a
  | SocketConnect age => state (Async.on_connect age a)
  | SocketData data =>
      match final (on_data data (instance a)) with
      | Some c => {| instance := c; deferreds := deferreds a |}
      | None => a
      end
  | SocketEnd => lift on_end a
  | SocketClose => lift on_close a
  | SocketTimeout => lift on_timeout a
  | SocketError cause => lift (on_error cause) a
  end.

(** Calls and events one after the other. *)
Definition history (actions : list action) (a : Adapter) : Adapter :=
  fold_left (fun a x => act x a) actions a.

(** The functions waiting on pending promises, oldest first. *)
Definition waiting (a : Adapter) : list reaction :=
  flat_map reactions_of (rev (deferreds a)).



(** ** Facts about the primitives *)

Section StringFacts.

Implicit Types s p r : jsstring.

Lemma length_nonneg s : 0 <= length s.
Proof. unfold length. lia. Qed.

Lemma length_app s r : length (s ++ r) = length s + length r.
Proof. unfold length. rewrite List.length_app. lia. Qed.

Lemma startsWith_app s p : startsWith (p ++ s) p = true.
Proof.
  induction p as [|a p IH]; simpl; [now destruct s|].
  now rewrite Ascii.eqb_refl.
Qed.

Lemma startsWith_split s p : startsWith s p = true -> exists r, s = p ++ r.
Proof.
  revert s. induction p as [|a p IH]; intros s H.
  - now exists s.
  - destruct s as [|b s]; simpl in H; [discriminate|].
    apply andb_true_iff in H as [Hab Hs].
    apply Ascii.eqb_eq in Hab. subst b.
    destruct (IH _ Hs) as [r ->]. now exists r.
Qed.

Lemma startsWith_length s p :
  startsWith s p = true -> (List.length p <= List.length s)%nat.
Proof.
  intros H. destruct (startsWith_split _ _ H) as [r ->].
  rewrite List.length_app. lia.
Qed.

(** Text added behind a string keeps a prefix match... *)
Lemma startsWith_extend s p r :
  startsWith s p = true -> startsWith (s ++ r) p = true.
Proof.
  intros H. destruct (startsWith_split _ _ H) as [t ->].
  rewrite <- app_assoc. apply startsWith_app.
Qed.

(** ...and creates none where the pattern already fitted. *)
Lemma startsWith_extend_false s p r :
  startsWith s p = false -> (List.length p <= List.length s)%nat ->
  startsWith (s ++ r) p = false.
Proof.
  revert s. induction p as [|a p IH]; intros s H Hlen.
  - destruct s; discriminate.
  - destruct s as [|b s]; simpl in *; [lia|].
    destruct (Ascii.eqb a b); simpl in *; [|reflexivity].
    apply IH; [assumption|lia].
Qed.

Lemma search_nil p : search [] p = if startsWith [] p then Some O else None.
Proof. reflexivity. Qed.

Lemma search_cons c s p :
  search (c :: s) p =
  if startsWith (c :: s) p then Some O else option_map S (search s p).
Proof. reflexivity. Qed.

Lemma search_bound s p i :
  search s p = Some i -> (i + List.length p <= List.length s)%nat.
Proof.
  revert i. induction s as [|c s IH]; intros i H.
  - rewrite search_nil in H.
    destruct (startsWith [] p) eqn:E; [|discriminate].
    injection H as <-. apply startsWith_length in E. lia.
  - rewrite search_cons in H. destruct (startsWith (c :: s) p) eqn:E.
    + injection H as <-. apply startsWith_length in E. lia.
    + destruct (search s p) as [j|] eqn:Ej; simpl in H; [|discriminate].
      injection H as <-. specialize (IH _ eq_refl). simpl. lia.
Qed.

(** The first occurrence stays the first when text is added behind. *)
Lemma search_extend s p r i :
  search s p = Some i -> search (s ++ r) p = Some i.
Proof.
  revert i. induction s as [|c s IH]; intros i H.
  - rewrite search_nil in H.
    destruct (startsWith [] p) eqn:E; [|discriminate].
    injection H as <-. destruct p; [|discriminate].
    simpl. now destruct r.
  - rewrite search_cons in H. rewrite <- app_comm_cons, search_cons.
    rewrite app_comm_cons.
    destruct (startsWith (c :: s) p) eqn:E.
    + injection H as <-. now rewrite startsWith_extend.
    + destruct (search s p) as [j|] eqn:Ej; simpl in H; [|discriminate].
      injection H as <-.
      rewrite startsWith_extend_false; [now rewrite (IH _ eq_refl)|assumption|].
      apply search_bound in Ej. simpl. lia.
Qed.

(** An occurrence somewhere in the text behind is an occurrence. *)
Lemma search_behind s p r i :
  search r p = Some i -> exists j, search (s ++ r) p = Some j.
Proof.
  intros H. induction s as [|c s [j IH]].
  - now exists i.
  - rewrite <- app_comm_cons, search_cons.
    destruct (startsWith (c :: s ++ r) p); [now exists O|].
    rewrite IH. now exists (S j).
Qed.

(** A text too short for the pattern has no occurrence. *)
Lemma search_short s p :
  (List.length s < List.length p)%nat -> search s p = None.
Proof.
  intros H. destruct (search s p) as [i|] eqn:E; [|reflexivity].
  apply search_bound in E. lia.
Qed.

(** A prefix that ends before the first occurrence does has none. *)
Lemma search_firstn s p i k :
  search s p = Some i -> (k < i + List.length p)%nat ->
  search (firstn k s) p = None.
Proof.
  intros H Hk.
  destruct (search (firstn k s) p) as [j|] eqn:E; [|reflexivity].
  exfalso.
  pose proof (search_bound _ _ _ E) as Hb.
  pose proof (search_extend _ _ (skipn k s) _ E) as Hx.
  rewrite firstn_skipn in Hx. rewrite H in Hx. injection Hx as ->.
  rewrite length_firstn in Hb. lia.
Qed.

Lemma indexOf_some s p i : search s p = Some i -> indexOf s p = Z.of_nat i.
Proof. unfold indexOf. now intros ->. Qed.

Lemma indexOf_none s p : search s p = None -> indexOf s p = -1.
Proof. unfold indexOf. now intros ->. Qed.

Lemma indexOf_search s p i :
  0 <= i -> indexOf s p = i -> search s p = Some (Z.to_nat i).
Proof.
  unfold indexOf. destruct (search s p) as [j|]; intros Hi H; [|lia].
  f_equal. lia.
Qed.

Lemma indexOf_range s p : -1 <= indexOf s p <= length s - length p \/ indexOf s p = -1.
Proof.
  unfold indexOf. destruct (search s p) as [j|] eqn:E; [left|now right].
  apply search_bound in E. unfold length. lia.
Qed.

Lemma indexOf_absent_or_found s p :
  indexOf s p = -1 \/ 0 <= indexOf s p /\ indexOf s p + length p <= length s.
Proof.
  unfold indexOf. destruct (search s p) as [j|] eqn:E; [right|now left].
  apply search_bound in E. unfold length. lia.
Qed.

Lemma indexOf_extend s p r :
  0 <= indexOf s p -> indexOf (s ++ r) p = indexOf s p.
Proof.
  intros H. pose proof (indexOf_search _ _ _ H eq_refl) as E.
  rewrite (indexOf_some _ _ _ (search_extend _ _ r _ E)). lia.
Qed.

(** No occurrence in a text means none in its front or back part. *)
Lemma indexOf_absent_front s p r : indexOf (s ++ r) p = -1 -> indexOf s p = -1.
Proof.
  intros H. destruct (indexOf_absent_or_found s p) as [E|[E _]]; [assumption|].
  rewrite (indexOf_extend _ _ r E) in H. lia.
Qed.

Lemma indexOf_absent_back s p r : indexOf (s ++ r) p = -1 -> indexOf r p = -1.
Proof.
  intros H. unfold indexOf in *.
  destruct (search r p) as [i|] eqn:E; [|reflexivity].
  destruct (search_behind s _ _ _ E) as [j Hj]. rewrite Hj in H. lia.
Qed.

Lemma indexOf_firstn s p k :
  0 <= indexOf s p -> Z.of_nat k < indexOf s p + length p ->
  indexOf (firstn k s) p = -1.
Proof.
  intros H Hk. apply indexOf_none.
  apply (search_firstn _ _ _ _ (indexOf_search _ _ _ H eq_refl)).
  unfold length in Hk. lia.
Qed.

Lemma firstn_clamp (l : jsstring) a b :
  Nat.min a (List.length l) = Nat.min b (List.length l) ->
  firstn a l = firstn b l.
Proof.
  intros H.
  destruct (Nat.le_gt_cases a (List.length l)) as [Ha|Ha];
    destruct (Nat.le_gt_cases b (List.length l)) as [Hb|Hb].
  - f_equal. lia.
  - rewrite (firstn_all2 (n:=b)) by lia.
    replace a with (List.length l) by lia. apply firstn_all.
  - rewrite (firstn_all2 (n:=a)) by lia.
    replace b with (List.length l) by lia. symmetry. apply firstn_all.
  - now rewrite !firstn_all2 by lia.
Qed.

Lemma skipn_clamp (l : jsstring) a b :
  Nat.min a (List.length l) = Nat.min b (List.length l) ->
  skipn a l = skipn b l.
Proof.
  intros H.
  destruct (Nat.le_gt_cases a (List.length l)) as [Ha|Ha];
    destruct (Nat.le_gt_cases b (List.length l)) as [Hb|Hb].
  - f_equal. lia.
  - rewrite (skipn_all2 (n:=b)) by lia.
    replace a with (List.length l) by lia. apply skipn_all.
  - rewrite (skipn_all2 (n:=a)) by lia.
    replace b with (List.length l) by lia. symmetry. apply skipn_all.
  - now rewrite !skipn_all2 by lia.
Qed.

(** [substr] with a start that is not negative: skip, then take. *)
Lemma substr_spec s start n :
  0 <= start ->
  substr s start (Num n) = firstn (Z.to_nat n) (skipn (Z.to_nat start) s).
Proof.
  intros Hs. unfold substr, clamp, toInteger, length.
  destruct (start <? 0) eqn:E; [lia|].
  rewrite (skipn_clamp s (Z.to_nat (Z.min start (Z.of_nat (List.length s))))
             (Z.to_nat start)) by lia.
  apply firstn_clamp. rewrite length_skipn. lia.
Qed.

Lemma substr_prefix s r :
  substr (s ++ r) 0 (Num (length s)) = s.
Proof.
  rewrite substr_spec by lia. simpl. unfold length. rewrite Nat2Z.id.
  rewrite firstn_app, Nat.sub_diag, firstn_all. simpl. apply app_nil_r.
Qed.

Lemma substr_middle s r t :
  substr (s ++ r ++ t) (length s) (Num (length r)) = r.
Proof.
  rewrite substr_spec by apply length_nonneg.
  unfold length. rewrite !Nat2Z.id.
  rewrite skipn_app, skipn_all, Nat.sub_diag. simpl.
  rewrite firstn_app, Nat.sub_diag, firstn_all. simpl. apply app_nil_r.
Qed.

Lemma substr_negative s start n : n <= 0 -> substr s start (Num n) = [].
Proof.
  intros Hn. unfold substr, clamp, toInteger.
  pose proof (length_nonneg s).
  replace (Z.min (Z.max n 0) (length s)) with 0 by lia.
  rewrite Z.add_0_r.
  match goal with |- firstn ?k _ = _ => replace k with O; [reflexivity|] end.
  destruct (start <? 0); lia.
Qed.

(** [substring] from an offset inside the string. *)
Lemma substring_app s r : substring (s ++ r) (Num (length s)) = r.
Proof.
  unfold substring, clamp, toInteger. rewrite length_app.
  pose proof (length_nonneg s). pose proof (length_nonneg r).
  replace (Z.min (Z.max (length s) 0) (length s + length r)) with (length s) by lia.
  unfold length. rewrite Nat2Z.id.
  rewrite skipn_app, skipn_all, Nat.sub_diag. reflexivity.
Qed.

(** [substring] returns a tail of the string: what it drops is the front. *)
Lemma substring_tail s n : exists front, s = front ++ substring s n.
Proof.
  unfold substring. eexists. symmetry. apply firstn_skipn.
Qed.

End StringFacts.

Section StringFacts2.

Implicit Types s p r : jsstring.

Lemma search_startsWith s p : startsWith s p = true -> search s p = Some O.
Proof.
  intros H. destruct s; [rewrite search_nil|rewrite search_cons]; now rewrite H.
Qed.

Lemma indexOf_startsWith s p : startsWith s p = true -> indexOf s p = 0.
Proof. intros H. now rewrite (indexOf_some _ _ _ (search_startsWith _ _ H)). Qed.

Lemma indexOf_zero s p : indexOf s p = 0 -> startsWith s p = true.
Proof.
  intros H. apply (indexOf_search _ _ 0) in H; [|lia]. simpl in H.
  destruct s; [rewrite search_nil in H|rewrite search_cons in H];
    match type of H with
    | context [if ?b then _ else _] => destruct b; [reflexivity|]
    end; [discriminate|].
  destruct (search s p); discriminate.
Qed.

(** The text splits around the first occurrence of a pattern. *)
Lemma search_split s p i :
  search s p = Some i ->
  s = firstn i s ++ p ++ skipn (i + List.length p) s.
Proof.
  revert i. induction s as [|c s IH]; intros i H.
  - rewrite search_nil in H.
    destruct (startsWith [] p) eqn:E; [|discriminate].
    injection H as <-. destruct p; [reflexivity|discriminate].
  - rewrite search_cons in H. destruct (startsWith (c :: s) p) eqn:E.
    + injection H as <-. destruct (startsWith_split _ _ E) as [r Hr].
      rewrite Hr. simpl.
      now rewrite skipn_app, skipn_all, Nat.sub_diag.
    + destruct (search s p) as [j|] eqn:Ej; simpl in H; [|discriminate].
      injection H as <-. simpl. f_equal. now apply IH.
Qed.

Lemma readLine_found s :
  0 <= indexOf s CRLF ->
  readLine s = firstn (Z.to_nat (indexOf s CRLF)) s
  /\ length (readLine s) = indexOf s CRLF
  /\ indexOf (readLine s) CRLF = -1
  /\ exists rest, s = readLine s ++ CRLF ++ rest.
Proof.
  intros H. pose proof (indexOf_search _ _ _ H eq_refl) as E.
  pose proof (search_bound _ _ _ E) as Hb.
  assert (Hr : readLine s = firstn (Z.to_nat (indexOf s CRLF)) s).
  { unfold readLine. destruct (indexOf s CRLF >? -1) eqn:G; [|lia].
    rewrite substr_spec by lia. reflexivity. }
  rewrite Hr. repeat split.
  - unfold length. rewrite length_firstn. lia.
  - apply indexOf_firstn; [assumption|]. change (length CRLF) with 2. lia.
  - eexists. apply (search_split _ _ _ E).
Qed.

(** A prefix that reaches past the first occurrence has it, at the same
    offset. *)
Lemma search_firstn_found s p j k :
  search s p = Some j -> (j + List.length p <= k)%nat ->
  search (firstn k s) p = Some j.
Proof.
  intros H Hk.
  pose proof (search_bound _ _ _ H) as Hb.
  assert (Hocc : exists j', search (firstn k s) p = Some j').
  { pose proof (search_split _ _ _ H) as E.
    assert (F : firstn k s
                = firstn j s
                  ++ p ++ firstn (k - j - List.length p)
                            (skipn (j + List.length p) s)).
    { rewrite E at 1. rewrite firstn_app, length_firstn.
      rewrite (@firstn_all2 _ _ (firstn j s)) by (rewrite length_firstn; lia).
      f_equal. rewrite firstn_app.
      rewrite (@firstn_all2 _ _ p) by lia.
      do 2 f_equal. lia. }
    rewrite F. apply (search_behind _ _ _ O).
    apply search_startsWith, startsWith_app. }
  destruct Hocc as [j' Hj'].
  pose proof (search_extend _ _ (skipn k s) _ Hj') as X.
  rewrite firstn_skipn in X. congruence.
Qed.

End StringFacts2.

(** ** Facts about the adapter *)

Lemma CRLF_LENGTH_2 : CRLF_LENGTH = 2.
Proof. reflexivity. Qed.

Lemma getHandleResult_no_line callbacks buffer :
  indexOf buffer CRLF = -1 -> getHandleResult callbacks buffer = RFalse.
Proof. unfold getHandleResult. now intros ->. Qed.

Lemma getHandleResult_error callbacks buffer :
  indexOf buffer CRLF <> -1 -> has_error buffer = true ->
  getHandleResult callbacks buffer = handleError buffer.
Proof.
  unfold getHandleResult, has_error. intros H ->.
  now apply Z.eqb_neq in H as ->.
Qed.

Lemma getHandleResult_dispatch cb callbacks t buffer :
  indexOf buffer CRLF <> -1 -> has_error buffer = false ->
  type cb = JStr t -> t <> [] ->
  getHandleResult (cb :: callbacks) buffer = dispatch (ucfirst t) buffer.
Proof.
  unfold getHandleResult, has_error. intros H -> -> Ht.
  apply Z.eqb_neq in H as ->. now destruct t.
Qed.

Lemma handleData_loop_S fuel c :
  handleData_loop (S fuel) c =
  if length (buffer c) >? 0 then
    match handleData_turn c with
    | Break => Done c
    | Raise => Threw c
    | Continue c' => handleData_loop fuel c'
    end
  else Done c.
Proof. reflexivity. Qed.

(** A turn that breaks leaves [handleData] with the instance untouched. *)
Lemma handleData_break c : handleData_turn c = Break -> handleData c = Done c.
Proof.
  intros H. unfold handleData, turns. rewrite handleData_loop_S, H.
  now destruct (length (buffer c) >? 0).
Qed.

Lemma handleData_empty c : buffer c = [] -> handleData c = Done c.
Proof.
  intros H. unfold handleData, turns. rewrite handleData_loop_S, H. reflexivity.
Qed.

(** A turn that continues took the front of the buffer away, no more. *)
Lemma turn_buffer_tail c c' :
  handleData_turn c = Continue c' -> exists front, buffer c = front ++ buffer c'.
Proof.
  unfold handleData_turn.
  destruct (getHandleResult _ _) as [|v pos e|]; try discriminate.
  destruct (gt pos _); [discriminate|]. intros [= <-].
  unfold shift_and_call. simpl.
  destruct (callbacks c); simpl; apply substring_tail.
Qed.

(** A result found on an empty queue is an error line. *)
Lemma getHandleResult_nil buffer v pos e :
  getHandleResult [] buffer = RArr v pos e ->
  0 <= indexOf buffer CRLF /\ pos = Num (indexOf buffer CRLF + 2).
Proof.
  unfold getHandleResult.
  destruct (indexOf buffer CRLF =? -1) eqn:E; [discriminate|].
  destruct (existsb _ ERRORS); [|discriminate].
  apply Z.eqb_neq in E.
  assert (H : 0 <= indexOf buffer CRLF).
  { destruct (indexOf_absent_or_found buffer CRLF) as [?|[? _]]; [contradiction|assumption]. }
  destruct (readLine_found _ H) as (_ & Hl & _).
  unfold handleError. intros [= <- <- <-]. rewrite Hl. split; [assumption|reflexivity].
Qed.

(** Every turn that continues shortens the buffer or the queue. *)
Lemma turn_decreases c c' :
  handleData_turn c = Continue c' ->
  (List.length (buffer c') + List.length (callbacks c')
   < List.length (buffer c) + List.length (callbacks c))%nat.
Proof.
  unfold handleData_turn.
  destruct (getHandleResult _ _) as [|v pos e|] eqn:R; try discriminate.
  destruct (gt pos _) eqn:G; [discriminate|]. intros [= <-].
  unfold shift_and_call. simpl.
  destruct (callbacks c) as [|cb rest] eqn:Q; simpl.
  - destruct (getHandleResult_nil _ _ _ _ R) as [H ->].
    simpl in G. unfold substring, clamp, toInteger, length in *.
    rewrite length_skipn, ?Q. simpl. lia.
  - unfold substring. rewrite length_skipn, ?Q. simpl. lia.
Qed.

(** The loop's outcome no longer depends on the fuel once it suffices. *)
Lemma handleData_loop_enough fuel c :
  (List.length (buffer c) + List.length (callbacks c) < fuel)%nat ->
  handleData_loop fuel c <> OutOfFuel.
Proof.
  revert c. induction fuel as [|fuel IH]; intros c H; [lia|].
  rewrite handleData_loop_S.
  destruct (length (buffer c) >? 0); [|discriminate].
  destruct (handleData_turn c) as [| |c'] eqn:T; try discriminate.
  apply IH. apply turn_decreases in T. lia.
Qed.

Lemma handleData_loop_more fuel fuel' c :
  handleData_loop fuel c <> OutOfFuel -> (fuel <= fuel')%nat ->
  handleData_loop fuel' c = handleData_loop fuel c.
Proof.
  revert fuel' c. induction fuel as [|fuel IH]; intros fuel' c H Hle.
  - now contradiction H.
  - destruct fuel' as [|fuel']; [lia|].
    rewrite !handleData_loop_S in *.
    destruct (length (buffer c) >? 0); [|reflexivity].
    destruct (handleData_turn c) as [| |c']; try reflexivity.
    apply IH; [assumption|lia].
Qed.

(** Any fuel that lets the loop finish gives the outcome of [handleData]. *)
Lemma handleData_loop_result fuel c o :
  handleData_loop fuel c = o -> o <> OutOfFuel -> handleData c = o.
Proof.
  intros H Ho. unfold handleData.
  destruct (Nat.le_ge_cases fuel (turns c)) as [Hle|Hle].
  - rewrite <- H. apply handleData_loop_more; [now rewrite H|assumption].
  - rewrite <- H. symmetry. apply handleData_loop_more; [|assumption].
    apply handleData_loop_enough. unfold turns. lia.
Qed.

(** Unfolding [handleData] by one turn. *)
Lemma handleData_continue c c' :
  buffer c <> [] -> handleData_turn c = Continue c' ->
  handleData c = handleData c'.
Proof.
  intros Hb T.
  assert (E : handleData_loop (S (turns c')) c = handleData c').
  { rewrite handleData_loop_S, T.
    destruct (buffer c) eqn:B; [contradiction|]. reflexivity. }
  apply (handleData_loop_result _ _ _ E).
  rewrite <- E at 1. rewrite E.
  apply handleData_loop_enough. unfold turns. lia.
Qed.

(** *** Error messages in parts of a text *)

Lemma has_error_false buffer :
  has_error buffer = false <->
  forall item, In item ERRORS -> indexOf buffer item = -1.
Proof.
  unfold has_error. split.
  - intros H item Hin.
    destruct (indexOf_absent_or_found buffer item) as [E|[E _]]; [assumption|].
    assert (X : existsb (fun item => indexOf buffer item >? -1) ERRORS = true).
    { apply existsb_exists. exists item. split; [assumption|lia]. }
    congruence.
  - intros H. apply not_true_iff_false. intros X.
    apply existsb_exists in X as (item & Hin & Hgt).
    specialize (H _ Hin). lia.
Qed.

Lemma has_error_front s r : has_error (s ++ r) = false -> has_error s = false.
Proof.
  rewrite !has_error_false. intros H item Hin.
  apply (indexOf_absent_front _ _ r). now apply H.
Qed.

Lemma has_error_back s r : has_error (s ++ r) = false -> has_error r = false.
Proof.
  rewrite !has_error_false. intros H item Hin.
  apply (indexOf_absent_back s). now apply H.
Qed.

(** *** What the framer returns on a framed reply *)

Lemma is_type_eq type' name : is_type type' name = true -> type' = JStr (str name).
Proof.
  unfold is_type. destruct type' as [| |t]; try discriminate.
  destruct (list_eq_dec ascii_dec t (str name)); [now subst|discriminate].
Qed.

Lemma dispatch_get buffer : dispatch (ucfirst (str "get")) buffer = handleGet buffer.
Proof. reflexivity. Qed.

Lemma dispatch_simple buffer :
  dispatch (ucfirst (str "simple")) buffer = handleSimple buffer.
Proof. reflexivity. Qed.

Lemma dispatch_version buffer :
  dispatch (ucfirst (str "version")) buffer = handleVersion buffer.
Proof. reflexivity. Qed.

(** The first terminator of a text that begins with a terminated line. *)
Lemma first_line line rest :
  indexOf (line ++ CRLF) CRLF = length line ->
  indexOf (line ++ CRLF ++ rest) CRLF = length line.
Proof.
  intros H. rewrite app_assoc, indexOf_extend; [assumption|].
  rewrite H. apply length_nonneg.
Qed.

Lemma readLine_first_line line rest :
  indexOf (line ++ CRLF) CRLF = length line ->
  readLine (line ++ CRLF ++ rest) = line.
Proof.
  intros H. unfold readLine. rewrite (first_line _ _ H).
  pose proof (length_nonneg line).
  destruct (length line >? -1) eqn:G; [|lia]. apply substr_prefix.
Qed.

Section Framed.

Variables (q : pending) (queue : list pending).

Lemma parse_simple line rest :
  type q = JStr (str "simple") ->
  indexOf (line ++ CRLF) CRLF = length line ->
  has_error (line ++ CRLF ++ rest) = false ->
  getHandleResult (q :: queue) (line ++ CRLF ++ rest)
  = RArr (JStr line) (Num (length line + 2)) JNull.
Proof.
  intros Ht Hl He. pose proof (length_nonneg line).
  assert (Hc : indexOf (line ++ CRLF ++ rest) CRLF <> -1)
    by (rewrite first_line by assumption; lia).
  rewrite (getHandleResult_dispatch _ _ _ _ Hc He Ht) by discriminate.
  rewrite dispatch_simple. unfold handleSimple.
  now rewrite readLine_first_line.
Qed.

Lemma parse_version line rest :
  type q = JStr (str "version") ->
  indexOf (line ++ CRLF) CRLF = length line ->
  has_error (line ++ CRLF ++ rest) = false ->
  getHandleResult (q :: queue) (line ++ CRLF ++ rest)
  = RArr (JStr (skipn 8 line)) (Num (length line + 2)) JNull.
Proof.
  intros Ht Hl He. pose proof (length_nonneg line).
  assert (Hc : indexOf (line ++ CRLF ++ rest) CRLF <> -1)
    by (rewrite first_line by assumption; lia).
  rewrite (getHandleResult_dispatch _ _ _ _ Hc He Ht) by discriminate.
  rewrite dispatch_version. unfold handleVersion.
  rewrite first_line by assumption. f_equal. f_equal.
  destruct (Z.le_gt_cases (length line - 8) 0) as [Hs|Hs].
  - rewrite substr_negative by assumption.
    symmetry. apply skipn_all2. unfold length in Hs. lia.
  - rewrite substr_spec by lia.
    change (Z.to_nat 8) with 8%nat.
    rewrite skipn_app.
    replace (8 - List.length line)%nat with O by (unfold length in Hs; lia).
    simpl skipn at 2.
    rewrite firstn_app.
    replace (Z.to_nat (length line - 8)) with (List.length (skipn 8 line))
      by (rewrite length_skipn; unfold length; lia).
    now rewrite firstn_all, Nat.sub_diag, app_nil_r.
Qed.

Lemma parse_miss rest :
  type q = JStr (str "get") ->
  has_error (str "END" ++ CRLF ++ rest) = false ->
  getHandleResult (q :: queue) (str "END" ++ CRLF ++ rest)
  = RArr JNull (Num 5) JUndefined.
Proof.
  intros Ht He.
  assert (Hc : indexOf (str "END" ++ CRLF ++ rest) CRLF <> -1)
    by (change (indexOf (str "END" ++ CRLF ++ rest) CRLF) with 3; lia).
  rewrite (getHandleResult_dispatch _ _ _ _ Hc He Ht) by discriminate.
  rewrite dispatch_get. reflexivity.
Qed.

Lemma frame_hit_length header data :
  length (frame (Hit header data)) = length header + 2 + length data + 2 + 3 + 2.
Proof.
  unfold frame. rewrite !length_app.
  change (length CRLF) with 2. change (length (str "END")) with 3. lia.
Qed.

Lemma parse_hit header data rest :
  type q = JStr (str "get") ->
  framed (Hit header data) = true ->
  has_error (frame (Hit header data) ++ rest) = false ->
  getHandleResult (q :: queue) (frame (Hit header data) ++ rest)
  = RArr (JStr data) (Num (length (frame (Hit header data)))) JUndefined.
Proof.
  intros Ht Hf He. rewrite frame_hit_length.
  unfold framed in Hf. apply andb_true_iff in Hf as [Hf Hend].
  apply andb_true_iff in Hf as [Hv Hl].
  apply Z.eqb_eq in Hl, Hend.
  pose proof (length_nonneg header). pose proof (length_nonneg data).
  set (b := frame (Hit header data) ++ rest) in *.
  assert (B1 : b = header ++ CRLF ++ data ++ CRLF ++ str "END" ++ CRLF ++ rest).
  { unfold b, frame. now rewrite <- !app_assoc. }
  assert (E3 : indexOf b CRLF = length header).
  { rewrite B1. now apply first_line. }
  assert (E1 : indexOf b (str "END") = length header + 2 + length data + 2).
  { rewrite !length_app in Hend. change (length CRLF) with 2 in Hend.
    rewrite B1.
    replace (header ++ CRLF ++ data ++ CRLF ++ str "END" ++ CRLF ++ rest)
      with ((header ++ CRLF ++ data ++ CRLF ++ str "END") ++ CRLF ++ rest)
      by now rewrite <- !app_assoc.
    rewrite indexOf_extend; lia. }
  assert (E2 : indexOf b (str "VALUE") = 0).
  { apply indexOf_startsWith. rewrite B1. now apply startsWith_extend. }
  assert (Hc : indexOf b CRLF <> -1) by lia.
  rewrite (getHandleResult_dispatch _ _ _ _ Hc He Ht) by discriminate.
  rewrite dispatch_get. unfold handleGet.
  rewrite E1, E2, E3. change CRLF_LENGTH with 2.
  destruct (length header + 2 + length data + 2 =? 0) eqn:G1; [lia|].
  destruct (length header + 2 + length data + 2 >? -1) eqn:G2; [|lia].
  simpl andb. cbv iota. unfold parseIntNum. simpl add.
  f_equal; [|f_equal; lia].
  f_equal.
  replace (length header + 2 + length data + 2 - (length header + 2) - 2)
    with (length data) by lia.
  rewrite B1.
  replace (header ++ CRLF ++ data ++ CRLF ++ str "END" ++ CRLF ++ rest)
    with ((header ++ CRLF) ++ data ++ CRLF ++ str "END" ++ CRLF ++ rest)
    by now rewrite <- !app_assoc.
  replace (length header + 2) with (length (header ++ CRLF))
    by (rewrite length_app; reflexivity).
  apply substr_middle.
Qed.

End Framed.

(** *** What the framer returns while a framed reply is still arriving *)

Section Partial.

Variables (q : pending) (queue : list pending).

Lemma partial_line text k :
  indexOf (text ++ CRLF) CRLF = length text ->
  (k < List.length (text ++ CRLF))%nat ->
  waits (firstn k (text ++ CRLF))
        (getHandleResult (q :: queue) (firstn k (text ++ CRLF))).
Proof.
  intros Hl Hk. rewrite getHandleResult_no_line; [exact I|].
  pose proof (length_nonneg text).
  apply indexOf_firstn; [lia|].
  rewrite Hl. change (length CRLF) with 2.
  rewrite List.length_app in Hk. unfold length. simpl in Hk. lia.
Qed.

Lemma partial_miss k :
  (k < List.length (str "END" ++ CRLF))%nat ->
  waits (firstn k (str "END" ++ CRLF))
        (getHandleResult (q :: queue) (firstn k (str "END" ++ CRLF))).
Proof.
  intros Hk. apply (partial_line (str "END")); [reflexivity|assumption].
Qed.

Lemma partial_hit header data k :
  type q = JStr (str "get") ->
  framed (Hit header data) = true ->
  declares_enough (Hit header data) = true ->
  (k < List.length (frame (Hit header data)))%nat ->
  has_error (firstn k (frame (Hit header data))) = false ->
  waits (firstn k (frame (Hit header data)))
        (getHandleResult (q :: queue) (firstn k (frame (Hit header data)))).
Proof.
  intros Ht Hf Htr Hk He.
  unfold framed in Hf. apply andb_true_iff in Hf as [Hf Hend].
  apply andb_true_iff in Hf as [Hv Hl].
  apply Z.eqb_eq in Hl, Hend.
  unfold declares_enough in Htr.
  destruct (declared header) as [|n|] eqn:Hd; try discriminate.
  apply Z.leb_le in Htr.
  pose proof (length_nonneg header). pose proof (length_nonneg data).
  pose proof (frame_hit_length header data) as HF.
  set (F := frame (Hit header data)) in *.
  set (b := firstn k F) in *.
  assert (Hsplit : b ++ skipn k F = F) by apply firstn_skipn.
  assert (Lb : length b = Z.of_nat k).
  { unfold b, length. rewrite length_firstn. lia. }
  assert (LF : length F = Z.of_nat (List.length F)) by reflexivity.
  assert (Fc : indexOf F CRLF = length header).
  { unfold F, frame. now apply first_line. }
  assert (Fe : indexOf F (str "END") = length header + 2 + length data + 2).
  { rewrite !length_app in Hend. change (length CRLF) with 2 in Hend.
    unfold F, frame.
    replace (header ++ CRLF ++ data ++ CRLF ++ str "END" ++ CRLF)
      with ((header ++ CRLF ++ data ++ CRLF ++ str "END") ++ CRLF)
      by now rewrite <- !app_assoc.
    rewrite indexOf_extend; lia. }
  destruct (indexOf_absent_or_found b CRLF) as [N|[P Pb]].
  { rewrite getHandleResult_no_line; [exact I|assumption]. }
  assert (Bc : indexOf b CRLF = length header).
  { rewrite <- (indexOf_extend b CRLF (skipn k F) P), Hsplit. exact Fc. }
  change (length CRLF) with 2 in Pb.
  assert (Bs : b = (header ++ CRLF)
                   ++ firstn (k - List.length (header ++ CRLF))
                        (data ++ CRLF ++ str "END" ++ CRLF)).
  { unfold b, F, frame. rewrite app_assoc, firstn_app.
    rewrite firstn_all2; [reflexivity|].
    rewrite List.length_app. unfold length in *. simpl. lia. }
  assert (Bv : indexOf b (str "VALUE") = 0).
  { apply indexOf_startsWith. rewrite Bs, <- app_assoc.
    now apply startsWith_extend. }
  assert (Bn : indexOf b (str "END") <> 0).
  { intros Z0. apply indexOf_zero in Z0.
    destruct (startsWith_split _ _ Hv) as [h' Hh].
    rewrite Bs, Hh in Z0. discriminate. }
  assert (Hc : indexOf b CRLF <> -1) by lia.
  rewrite (getHandleResult_dispatch _ _ _ _ Hc He Ht) by discriminate.
  rewrite dispatch_get. unfold handleGet.
  apply Z.eqb_neq in Bn. rewrite Bn, Bv, Bc. change CRLF_LENGTH with 2.
  destruct (indexOf_absent_or_found b (str "END")) as [Ne|[Pe _]].
  - rewrite Ne. simpl andb. cbv iota.
    replace (substr b 0 (Num (length header + 2))) with (header ++ CRLF).
    2:{ rewrite Bs.
        replace (length header + 2) with (length (header ++ CRLF))
          by (rewrite length_app; reflexivity).
        symmetry. apply substr_prefix. }
    fold (declared header). rewrite Hd. simpl. lia.
  - assert (Be : indexOf b (str "END") = length header + 2 + length data + 2).
    { rewrite <- (indexOf_extend b (str "END") (skipn k F) Pe), Hsplit. exact Fe. }
    rewrite Be.
    destruct (length header + 2 + length data + 2 >? -1) eqn:G; [|lia].
    simpl. lia.
Qed.

End Partial.

(** *** One turn of the loop on a framed reply *)

Lemma frame_nonempty r : frame r <> [].
Proof.
  destruct r as [text| |header data]; simpl; try discriminate;
    [destruct text|destruct header]; discriminate.
Qed.

Lemma with_buffer_same c : with_buffer c (buffer c) = c.
Proof. now destruct c. Qed.

Lemma advance_same c : advance c (buffer c) (callbacks c) [] = c.
Proof. destruct c. unfold advance. simpl. now rewrite app_nil_r. Qed.

Lemma advance_advance c b queue done b' queue' done' :
  advance (advance c b queue done) b' queue' done'
  = advance c b' queue' (done ++ done').
Proof. unfold advance. simpl. now rewrite app_assoc. Qed.

(** The framer's result on a framed reply at the head of the buffer. *)
Lemma parse_frame q queue r rest :
  accepts (type q) r = true -> framed r = true ->
  has_error (frame r ++ rest) = false ->
  exists value error,
    getHandleResult (q :: queue) (frame r ++ rest)
    = RArr value (Num (length (frame r))) error
    /\ invoke error value = expected (type q) r.
Proof.
  intros Ha Hf He. destruct r as [text| |header data].
  - simpl in Ha, Hf. apply Z.eqb_eq in Hf.
    simpl frame in *. rewrite <- app_assoc in *. rewrite length_app.
    change (length CRLF) with 2.
    destruct (is_type (type q) "version") eqn:V.
    + exists (JStr (skipn 8 text)), JNull. split.
      * apply parse_version; [now apply is_type_eq|assumption..].
      * unfold expected. now rewrite V.
    + rewrite orb_false_r in Ha.
      exists (JStr text), JNull. split.
      * apply parse_simple; [now apply is_type_eq|assumption..].
      * unfold expected. now rewrite V.
  - exists JNull, JUndefined. simpl in Ha. split; [|reflexivity].
    change (frame Miss ++ rest) with (str "END" ++ CRLF ++ rest) in *.
    apply parse_miss; [now apply is_type_eq|assumption].
  - exists (JStr data), JUndefined. simpl in Ha. split; [|reflexivity].
    apply parse_hit; [now apply is_type_eq|assumption..].
Qed.

Lemma turn_complete c q queue r rest :
  callbacks c = q :: queue -> buffer c = frame r ++ rest ->
  accepts (type q) r = true -> framed r = true ->
  has_error (frame r ++ rest) = false ->
  handleData_turn c
  = Continue (advance c rest queue [(callback q, expected (type q) r)]).
Proof.
  intros Hq Hb Ha Hf He.
  destruct (parse_frame q queue r rest Ha Hf He) as (value & error & Hp & Hi).
  unfold handleData_turn. rewrite Hq, Hb, Hp.
  pose proof (length_nonneg rest).
  unfold gt. rewrite length_app.
  destruct (length (frame r) >? length (frame r) + length rest) eqn:G; [lia|].
  rewrite substring_app. unfold shift_and_call, with_buffer, advance. simpl.
  rewrite Hq, Hi. reflexivity.
Qed.

(** *** Error replies *)

Lemma has_error_behind s r : has_error r = true -> has_error (s ++ r) = true.
Proof.
  intros H. destruct (has_error (s ++ r)) eqn:E; [reflexivity|].
  apply has_error_back in E. congruence.
Qed.

Lemma has_error_ahead s r : has_error s = true -> has_error (s ++ r) = true.
Proof.
  intros H. destruct (has_error (s ++ r)) eqn:E; [reflexivity|].
  apply has_error_front in E. congruence.
Qed.

(** Whatever the queue, an error message in a buffer with a terminator
    makes the turn take the first line and hand it to the head callback,
    if there is one, as its error. *)
Lemma error_turn c line rest :
  buffer c = line ++ CRLF ++ rest ->
  indexOf (line ++ CRLF) CRLF = length line ->
  has_error (buffer c) = true ->
  handleData_turn c
  = Continue (shift_and_call (with_buffer c rest) (JStr line) JNull).
Proof.
  intros Hb Hl He. unfold handleData_turn.
  pose proof (length_nonneg line). pose proof (length_nonneg rest).
  assert (Hc : indexOf (buffer c) CRLF <> -1).
  { rewrite Hb, first_line by assumption. lia. }
  rewrite (getHandleResult_error _ _ Hc He). unfold handleError.
  rewrite Hb, readLine_first_line by assumption.
  change CRLF_LENGTH with 2. unfold gt.
  rewrite !length_app. change (length CRLF) with 2.
  destruct (length line + 2 >? length line + (2 + length rest)) eqn:G; [lia|].
  replace (length line + 2) with (length (line ++ CRLF))
    by (rewrite length_app; reflexivity).
  now rewrite app_assoc, substring_app.
Qed.

Lemma verdict_expected type' r : is_error r = false -> verdict type' r = expected type' r.
Proof. unfold verdict. now intros ->. Qed.

(** One turn on a reply that answers the head request and has arrived
    whole: the reply is taken and the request settled with its verdict. *)
Lemma turn_answer c q queue r rest :
  callbacks c = q :: queue -> buffer c = frame r ++ rest ->
  answers (type q) r = true ->
  is_error r || negb (has_error (frame r ++ rest)) = true ->
  handleData_turn c
  = Continue (advance c rest queue [(callback q, verdict (type q) r)]).
Proof.
  intros Hq Hb Ha Ho. unfold answers in Ha.
  apply andb_true_iff in Ha as [Hf Ha].
  destruct (is_error r) eqn:E.
  - destruct r as [text| |header data]; try discriminate.
    simpl in E, Hf. apply Z.eqb_eq in Hf.
    simpl frame in Hb. rewrite <- app_assoc in Hb.
    rewrite (error_turn c text rest Hb Hf).
    + unfold shift_and_call, with_buffer, advance, verdict. simpl.
      rewrite Hq, E. unfold invoke.
      destruct text; [discriminate E|reflexivity].
    + rewrite Hb. now apply has_error_ahead.
  - simpl in Ha, Ho. apply negb_true_iff in Ho.
    rewrite verdict_expected by assumption.
    now apply turn_complete.
Qed.

(** One turn on a reply that answers the head request and is still
    arriving: the turn breaks. *)
Lemma turn_partial c q queue r k :
  callbacks c = q :: queue -> buffer c = firstn k (frame r) ->
  (k < List.length (frame r))%nat ->
  answers (type q) r = true -> declares_enough r = true ->
  is_error r || negb (has_error (firstn k (frame r))) = true ->
  waits (buffer c) (getHandleResult (callbacks c) (buffer c))
  /\ handleData_turn c = Break.
Proof.
  intros Hq Hb Hk Ha Ht He. unfold answers in Ha.
  apply andb_true_iff in Ha as [Hf Ha].
  assert (W : waits (buffer c) (getHandleResult (callbacks c) (buffer c))).
  { rewrite Hq, Hb. destruct r as [text| |header data].
    - simpl in Hf. apply Z.eqb_eq in Hf. now apply partial_line.
    - now apply partial_miss.
    - simpl in Ha, He. apply negb_true_iff in He.
      apply partial_hit; [now apply is_type_eq|assumption..]. }
  split; [exact W|].
  unfold handleData_turn.
  destruct (getHandleResult (callbacks c) (buffer c)); simpl in W;
    [reflexivity|now rewrite W|contradiction].
Qed.

(** *** The loop on a stream of framed replies *)

Lemma paired_cons q queue r replies :
  paired (q :: queue) (r :: replies) = true ->
  accepts (type q) r = true /\ framed r = true /\ paired queue replies = true.
Proof.
  simpl. intros H. apply andb_true_iff in H as [H ?].
  apply andb_true_iff in H as [? ?]. auto.
Qed.

Lemma handleData_stream replies : forall queue c,
  paired queue replies = true ->
  has_error (stream replies) = false ->
  buffer c = stream replies -> callbacks c = queue ->
  handleData c = Done (advance c [] [] (settlements queue replies)).
Proof.
  induction replies as [|r replies IH]; intros queue c Hp He Hb Hq.
  - destruct queue; [|discriminate]. simpl in *.
    rewrite handleData_empty by assumption.
    f_equal. rewrite <- (advance_same c) at 1. now rewrite Hb, Hq.
  - destruct queue as [|q queue]; [discriminate|].
    apply paired_cons in Hp as (Ha & Hf & Hp).
    change (stream (r :: replies)) with (frame r ++ stream replies) in *.
    pose proof (turn_complete c q queue r _ Hq Hb Ha Hf He) as T.
    rewrite (handleData_continue _ _ ltac:(rewrite Hb; intros X;
      apply app_eq_nil in X as [X _]; now apply frame_nonempty in X) T).
    rewrite (IH queue); try reflexivity; try assumption.
    + now rewrite advance_advance.
    + now apply has_error_back in He.
Qed.

Lemma answered_cons q queue r replies :
  answered (q :: queue) (r :: replies) = true ->
  answers (type q) r = true /\ answered queue replies = true.
Proof. simpl. intros H. now apply andb_true_iff in H. Qed.

Lemma skipn_frame (a b : jsstring) : skipn (List.length a) (a ++ b) = b.
Proof. now rewrite skipn_app, skipn_all, Nat.sub_diag. Qed.

(** The loop on replies that have arrived whole, error replies among
    them. *)
Lemma handleData_replies replies : forall queue c,
  answered queue replies = true ->
  orderly replies (stream replies) = true ->
  buffer c = stream replies -> callbacks c = queue ->
  handleData c = Done (advance c [] [] (verdicts queue replies)).
Proof.
  induction replies as [|r replies IH]; intros queue c Hp Ho Hb Hq.
  - destruct queue; [|discriminate]. simpl in *.
    rewrite handleData_empty by assumption.
    f_equal. rewrite <- (advance_same c) at 1. now rewrite Hb, Hq.
  - destruct queue as [|q queue]; [discriminate|].
    apply answered_cons in Hp as (Ha & Hp).
    change (stream (r :: replies)) with (frame r ++ stream replies) in *.
    cbn [orderly] in Ho. apply andb_true_iff in Ho as [Ho1 Ho].
    rewrite skipn_frame in Ho.
    pose proof (turn_answer c q queue r _ Hq Hb Ha Ho1) as T.
    rewrite (handleData_continue _ _ ltac:(rewrite Hb; intros X;
      apply app_eq_nil in X as [X _]; now apply frame_nonempty in X) T).
    rewrite (IH queue); try reflexivity; try assumption.
    now rewrite advance_advance.
Qed.

Lemma verdicts_callbacks replies : forall queue,
  answered queue replies = true ->
  map fst (verdicts queue replies) = map callback queue.
Proof.
  induction replies as [|r replies IH]; intros [|q queue] H;
    try discriminate; [reflexivity|].
  apply answered_cons in H as [_ H]. simpl. now rewrite IH.
Qed.

(** *** The loop on replies that arrive in pieces *)

Lemma orderly_front replies : forall data more,
  orderly replies (data ++ more) = true -> orderly replies data = true.
Proof.
  induction replies as [|r replies IH]; intros data more H; [reflexivity|].
  cbn [orderly] in *. apply andb_true_iff in H as [H1 H2].
  apply andb_true_iff. split.
  - destruct (is_error r); [reflexivity|]. simpl in *.
    apply negb_true_iff in H1. apply negb_true_iff.
    now apply has_error_front in H1.
  - rewrite skipn_app in H2. now apply IH in H2.
Qed.

Lemma conforms_front queue data more :
  conforms queue (data ++ more) -> conforms queue data.
Proof.
  intros (replies & rest & Hp & Ht & Hd & He).
  exists replies, (more ++ rest). repeat split; try assumption.
  - now rewrite app_assoc.
  - now apply (orderly_front replies data more).
Qed.

Lemma app_prefix_cases (a a' b b' : jsstring) :
  a ++ a' = b ++ b' ->
  (exists y, a = b ++ y /\ b' = y ++ a')
  \/ ((List.length a < List.length b)%nat /\ a = firstn (List.length a) b).
Proof.
  intros H. destruct (Nat.le_gt_cases (List.length b) (List.length a)) as [L|L].
  - left. exists (skipn (List.length b) a).
    assert (E : firstn (List.length b) (a ++ a') = b).
    { rewrite H, firstn_app, firstn_all, Nat.sub_diag. simpl. apply app_nil_r. }
    rewrite firstn_app in E.
    replace (List.length b - List.length a)%nat with O in E by lia.
    simpl in E. rewrite app_nil_r in E.
    split.
    + rewrite <- E at 1. symmetry. apply firstn_skipn.
    + apply (app_inv_head b). rewrite <- H, app_assoc.
      rewrite <- E at 1. now rewrite firstn_skipn.
  - right. split; [assumption|].
    assert (E : firstn (List.length a) (a ++ a') = a).
    { rewrite firstn_app, firstn_all, Nat.sub_diag. simpl. apply app_nil_r. }
    rewrite H, firstn_app in E.
    replace (List.length a - List.length b)%nat with O in E by lia.
    simpl in E. rewrite app_nil_r in E. now symmetry.
Qed.

(** On conforming data a turn either waits, or takes a whole reply and
    would take the same had more data been there already. *)
Lemma turn_conforming c more :
  conforms (callbacks c) (buffer c ++ more) -> buffer c <> [] ->
  handleData_turn c = Break
  \/ exists c',
       handleData_turn c = Continue c'
       /\ handleData_turn (with_buffer c (buffer c ++ more))
          = Continue (with_buffer c' (buffer c' ++ more))
       /\ conforms (callbacks c') (buffer c' ++ more).
Proof.
  intros (replies & rest & Hp & Ht & Hd & Ho) Hne.
  destruct replies as [|r replies].
  { simpl in Hd. apply app_eq_nil in Hd as [Hd _].
    apply app_eq_nil in Hd as [Hd _]. contradiction. }
  destruct (callbacks c) as [|q queue] eqn:Hq; [discriminate|].
  apply answered_cons in Hp as (Ha & Hp).
  simpl in Ht. apply andb_true_iff in Ht as [Htr Ht].
  change (stream (r :: replies)) with (frame r ++ stream replies) in Hd.
  cbn [orderly] in Ho. apply andb_true_iff in Ho as [Ho1 Ho].
  rewrite <- app_assoc in Hd.
  destruct (app_prefix_cases _ _ _ _ Hd) as [(y & Hy & Hs)|[Hk Hy]].
  - right. rewrite Hy, <- app_assoc in Ho1, Ho. rewrite skipn_frame in Ho.
    exists (advance c y queue [(callback q, verdict (type q) r)]).
    split; [|split].
    + apply turn_answer; try assumption.
      destruct (is_error r); [reflexivity|]. simpl in *.
      apply negb_true_iff in Ho1. apply negb_true_iff.
      rewrite app_assoc in Ho1. now apply has_error_front in Ho1.
    + rewrite (turn_answer _ q queue r (y ++ more)); try assumption.
      * reflexivity.
      * simpl. now rewrite Hy, <- app_assoc.
    + simpl. exists replies, rest. repeat split; try assumption.
      now rewrite <- app_assoc.
  - left. apply (turn_partial c q queue r (List.length (buffer c)));
      try assumption.
    rewrite <- Hy. destruct (is_error r); [reflexivity|]. simpl in *.
    apply negb_true_iff in Ho1. apply negb_true_iff.
    now apply has_error_front in Ho1.
Qed.

(** What the loop leaves behind, it leaves alone when run again. *)
Lemma handleData_loop_stable fuel : forall c c',
  handleData_loop fuel c = Done c' -> handleData c' = Done c'.
Proof.
  induction fuel as [|fuel IH]; intros c c' H; [discriminate|].
  rewrite handleData_loop_S in H.
  destruct (length (buffer c) >? 0) eqn:G.
  - destruct (handleData_turn c) as [| |c1] eqn:T; try discriminate.
    + injection H as <-. now apply handleData_break.
    + now apply (IH c1).
  - injection H as <-. apply handleData_empty.
    destruct (buffer c) eqn:B; [reflexivity|]. discriminate.
Qed.

(** On conforming data the loop ends normally, and running it before
    more data arrives changes nothing to what it does once they are in. *)
Lemma handleData_loop_conforming fuel : forall c more,
  conforms (callbacks c) (buffer c ++ more) ->
  handleData_loop fuel c <> OutOfFuel ->
  exists c',
    handleData_loop fuel c = Done c'
    /\ handleData (with_buffer c (buffer c ++ more))
       = handleData (with_buffer c' (buffer c' ++ more))
    /\ conforms (callbacks c') (buffer c' ++ more).
Proof.
  induction fuel as [|fuel IH]; intros c more Hc Hf; [now contradiction Hf|].
  rewrite handleData_loop_S in *.
  destruct (length (buffer c) >? 0) eqn:G; [|now exists c].
  assert (Hne : buffer c <> []).
  { intros E. rewrite E in G. discriminate. }
  destruct (turn_conforming c more Hc Hne) as [T|(c1 & T & Tm & Hc1)];
    rewrite T in *; [now exists c|].
  destruct (IH c1 more Hc1 Hf) as (c' & Hl & Hm & Hc').
  exists c'. repeat split; try assumption.
  rewrite <- Hm. apply handleData_continue; [|assumption].
  simpl. intros E. apply app_eq_nil in E as [E _]. contradiction.
Qed.

Lemma handleData_conforming c more :
  conforms (callbacks c) (buffer c ++ more) ->
  exists c',
    handleData c = Done c'
    /\ handleData (with_buffer c (buffer c ++ more))
       = handleData (with_buffer c' (buffer c' ++ more))
    /\ conforms (callbacks c') (buffer c' ++ more)
    /\ handleData c' = Done c'.
Proof.
  intros Hc. unfold handleData at 1.
  destruct (handleData_loop_conforming (turns c) c more Hc) as (c' & Hl & Hm & Hc').
  { apply handleData_loop_enough. unfold turns. lia. }
  exists c'. repeat split; try assumption.
  now apply (handleData_loop_stable _ _ _ Hl).
Qed.

Lemma with_buffer_app c a b :
  with_buffer (with_buffer c (buffer c ++ a))
    (buffer (with_buffer c (buffer c ++ a)) ++ b)
  = with_buffer c (buffer c ++ a ++ b).
Proof. unfold with_buffer. simpl. now rewrite app_assoc. Qed.

Lemma feed_conforming chunks : forall c,
  handleData c = Done c ->
  conforms (callbacks c) (buffer c ++ List.concat chunks) ->
  feed chunks c = on_data (List.concat chunks) c.
Proof.
  induction chunks as [|data chunks IH]; intros c Hs Hc.
  - unfold on_data. simpl. now rewrite app_nil_r, with_buffer_same, Hs.
  - simpl. unfold on_data.
    set (c0 := with_buffer c (buffer c ++ data)).
    assert (Hc0 : conforms (callbacks c0) (buffer c0 ++ List.concat chunks)).
    { unfold c0. simpl. simpl in Hc. now rewrite <- app_assoc. }
    destruct (handleData_conforming c0 (List.concat chunks) Hc0)
      as (c' & Hd & Hm & Hc' & Hs').
    rewrite Hd, (IH c' Hs' Hc'). unfold on_data. rewrite <- Hm.
    unfold c0. now rewrite with_buffer_app.
Qed.

(** Whatever [handleData] takes from the buffer is its front. *)
Lemma handleData_takes_front fuel : forall c c',
  handleData_loop fuel c = Done c' -> exists front, buffer c = front ++ buffer c'.
Proof.
  induction fuel as [|fuel IH]; intros c c' H; [discriminate|].
  rewrite handleData_loop_S in H.
  destruct (length (buffer c) >? 0);
    [|injection H as <-; now exists []].
  destruct (handleData_turn c) as [| |c1] eqn:T; try discriminate.
  - injection H as <-. now exists [].
  - destruct (turn_buffer_tail _ _ T) as [f1 H1].
    destruct (IH _ _ H) as [f2 H2].
    exists (f1 ++ f2). now rewrite H1, H2, app_assoc.
Qed.

(** ** The claims *)

(** *** C1 *)

(** C1, as stated, fails: the six-byte value FRIEND, declared as six bytes
    by its header, comes back as the single byte F: the block is cut at
    the first END found in the buffer, which lies inside the value. *)
Lemma C1_value_with_END_cut_short :
  declared (str "VALUE pal 0 6") = Num 6
  /\ getHandleResult [pending_get 0] (frame friend_reply)
     = RArr (JStr (str "F")) (Num 23) JUndefined
  /\ getHandleResult [pending_get 0] (frame friend_reply)
     <> RArr (JStr (str "FRIEND")) (Num (length (frame friend_reply))) JUndefined.
Proof.
  repeat split; try (vm_compute; reflexivity).
  intros H. vm_compute in H. discriminate H.
Qed.

(** C1, amended: for a get request and a value block whose first END is
    its trailer, in a buffer without error message, the framer returns
    exactly the data between header line and trailer and the length of the
    whole block as the bytes consumed, whatever else the data contain
    (line terminators included), whatever follows the block and whatever
    length the header declares: the block is delimited by the first END. *)
Theorem C1_value_block_delimited_by_first_END
    (q : pending) (queue : list pending) (header data rest : jsstring) :
  type q = JStr (str "get") ->
  framed (Hit header data) = true ->
  has_error (frame (Hit header data) ++ rest) = false ->
  getHandleResult (q :: queue) (frame (Hit header data) ++ rest)
  = RArr (JStr data) (Num (length (frame (Hit header data)))) JUndefined.
Proof. apply parse_hit. Qed.

(** The amended statement at a value with a line break inside. *)
Lemma C1_value_block_with_line_break :
  (type (pending_get 0) = JStr (str "get")
   /\ framed two_lines_reply = true
   /\ has_error (frame two_lines_reply ++ []) = false)
  /\ getHandleResult [pending_get 0] (frame two_lines_reply ++ [])
     = RArr (JStr (str "ab" ++ CRLF ++ str "cde"))
            (Num (length (frame two_lines_reply))) JUndefined.
Proof.
  split; [repeat split; vm_compute; reflexivity|].
  apply (C1_value_block_delimited_by_first_END (pending_get 0) []
           (str "VALUE k 0 7") (str "ab" ++ CRLF ++ str "cde") []);
    vm_compute; reflexivity.
Defined.

(** *** C2 *)

(** C2, as stated, fails on the payload: with [STORED] and then [ERROR]
    in the buffer, the error line is the second line, yet the result
    carries the first line, in which none of the four messages occurs. *)
Lemma C2_first_line_given_as_error :
  has_error (str "STORED" ++ CRLF ++ str "ERROR" ++ CRLF) = true
  /\ getHandleResult [pending_simple 0]
       (str "STORED" ++ CRLF ++ str "ERROR" ++ CRLF)
     = RArr JNull (Num 8) (JStr (str "STORED"))
  /\ has_error (str "STORED") = false.
Proof. repeat split; vm_compute; reflexivity. Qed.

(** C2, amended: when the buffer holds a terminator and one of the four
    error messages anywhere, the framer returns, for every queue and so
    for every expected reply type, an error result whose payload is the
    first line of the buffer (the text before the first terminator) and
    whose consumed count is that line's length plus the terminator length;
    the first line is the error line whenever the message lies before the
    first terminator. *)
Theorem C2_error_result_from_first_line
    (queue : list pending) (buffer : jsstring) (item : jsstring) :
  indexOf buffer CRLF <> -1 ->
  In item ERRORS -> indexOf buffer item <> -1 ->
  exists line rest,
    buffer = line ++ CRLF ++ rest /\ indexOf line CRLF = -1
    /\ getHandleResult queue buffer
       = RArr JNull (Num (length line + CRLF_LENGTH)) (JStr line)
    /\ (indexOf buffer item + length item <= indexOf buffer CRLF ->
        indexOf line item = indexOf buffer item).
Proof.
  intros Hc Hin Hi.
  assert (P : 0 <= indexOf buffer CRLF).
  { destruct (indexOf_absent_or_found buffer CRLF) as [?|[? _]];
      [contradiction|assumption]. }
  assert (Q : 0 <= indexOf buffer item).
  { destruct (indexOf_absent_or_found buffer item) as [?|[? _]];
      [contradiction|assumption]. }
  destruct (readLine_found _ P) as (Hl & _ & Hn & rest & Hr).
  exists (readLine buffer), rest. repeat split; try assumption.
  - apply getHandleResult_error; [assumption|].
    apply existsb_exists. exists item. split; [assumption|lia].
  - intros Hfit. rewrite Hl.
    pose proof (indexOf_search _ _ _ Q eq_refl) as S.
    rewrite (indexOf_some _ _ _
               (search_firstn_found _ _ _ (Z.to_nat (indexOf buffer CRLF)) S
                  ltac:(unfold length in Hfit; lia))).
    lia.
Qed.

(** The amended statement at an error reply to a get request. *)
Lemma C2_server_error_for_a_get :
  let buffer := str "SERVER_ERROR out of memory" ++ CRLF in
  (indexOf buffer CRLF <> -1 /\ In (str "SERVER_ERROR") ERRORS
   /\ indexOf buffer (str "SERVER_ERROR") <> -1)
  /\ exists line rest,
       buffer = line ++ CRLF ++ rest /\ indexOf line CRLF = -1
       /\ getHandleResult [pending_get 0] buffer
          = RArr JNull (Num (length line + CRLF_LENGTH)) (JStr line)
       /\ (indexOf buffer (str "SERVER_ERROR") + length (str "SERVER_ERROR")
           <= indexOf buffer CRLF ->
           indexOf line (str "SERVER_ERROR")
           = indexOf buffer (str "SERVER_ERROR")).
Proof.
  intros buffer.
  assert (H1 : indexOf buffer CRLF <> -1) by (vm_compute; discriminate).
  assert (H2 : In (str "SERVER_ERROR") ERRORS) by (simpl; auto).
  assert (H3 : indexOf buffer (str "SERVER_ERROR") <> -1)
    by (vm_compute; discriminate).
  split; [auto|].
  exact (C2_error_result_from_first_line [pending_get 0] buffer
           (str "SERVER_ERROR") H1 H2 H3).
Defined.

(** *** C3 *)

(** C3, as stated, fails: a get and a delete are queued, the replies (a
    value, then NOT_FOUND) arrive in one data event. Arriving apart they
    settle the first request with hello and the second with NOT_FOUND;
    merged, the first request fails with the header line and the second
    fails with hello, a piece of the reply to the first. *)
Lemma C3_merged_replies_misattributed :
  results (feed [frame hello_reply; frame (Line (str "NOT_FOUND"))]
             (receiving [] [pending_get 0; pending_simple 1]))
  = Some [(0%nat, Resolved (JStr (str "hello")));
          (1%nat, Rejected (JStr (str "NOT_FOUND")))]
  /\ results (on_data (frame hello_reply ++ frame (Line (str "NOT_FOUND")))
                (receiving [] [pending_get 0; pending_simple 1]))
     = Some [(0%nat, Rejected (JStr (str "VALUE k 0 5")));
             (1%nat, Rejected (JStr (str "hello")))].
Proof. split; vm_compute; reflexivity. Qed.

(** C3, amended: for every number of requests in the queue, in the order
    of issue, when their replies arrive in one merged data event, each
    reply is framed and is an error line or a reply of its request's type,
    and no reply other than an error line has one of the four error
    messages in it or behind it in the merged data, every request is
    settled exactly once, in queue order, each with its own reply (an
    error line rejects its request with the line), and nothing is left in
    the buffer or in the queue. *)
Theorem C3_pipelined_replies_in_order
    (queue : list pending) (replies : list reply) (c : Connection) :
  buffer c = [] -> callbacks c = queue ->
  answered queue replies = true ->
  orderly replies (stream replies) = true ->
  on_data (stream replies) c = Done (advance c [] [] (verdicts queue replies))
  /\ map fst (verdicts queue replies) = map callback queue
  /\ List.length replies = List.length queue.
Proof.
  intros Hb Hq Hp Ho. split; [|split].
  - unfold on_data.
    rewrite (handleData_replies replies queue); try assumption.
    + unfold advance. simpl. reflexivity.
    + simpl. now rewrite Hb.
  - now apply verdicts_callbacks.
  - clear Ho Hq. revert queue Hp.
    induction replies as [|r replies IH]; intros [|q queue] Hp;
      try discriminate; [reflexivity|].
    apply answered_cons in Hp as [_ Hp]. simpl. now rewrite (IH queue).
Qed.

(** The amended statement at a delete answered with NOT_FOUND, a get
    answered with a value and a version request, in one data event. *)
Lemma C3_three_pipelined_queries :
  let queue := [pending_simple 0; pending_get 1;
                {| type := JStr (str "version"); callback := 2 |}] in
  let replies := [Line (str "NOT_FOUND"); hello_reply;
                  Line (str "VERSION 1.4.5")] in
  let c := receiving [] queue in
  (buffer c = [] /\ callbacks c = queue
   /\ answered queue replies = true
   /\ orderly replies (stream replies) = true)
  /\ on_data (stream replies) c
     = Done (advance c [] []
               [(0%nat, Rejected (JStr (str "NOT_FOUND")));
                (1%nat, Resolved (JStr (str "hello")));
                (2%nat, Resolved (JStr (str "1.4.5")))])
  /\ map fst (verdicts queue replies) = map callback queue
  /\ List.length replies = List.length queue.
Proof.
  intros queue replies c.
  split; [repeat split; vm_compute; reflexivity|].
  apply (C3_pipelined_replies_in_order queue replies c);
    vm_compute; reflexivity.
Defined.

(** *** C4 *)

(** C4, as stated, fails: two deletes are pending and the replies DELETED
    and NOT_FOUND arrive. Fed as two chunks the first query is resolved
    with DELETED; fed as one buffer it is rejected with DELETED, because
    NOT_FOUND is then in the buffer when the first line is read. *)
Lemma C4_chunking_changes_results :
  results (feed [str "DELETED" ++ CRLF; str "NOT_FOUND" ++ CRLF]
             (receiving [] [pending_simple 0; pending_simple 1]))
  = Some [(0%nat, Resolved (JStr (str "DELETED")));
          (1%nat, Rejected (JStr (str "NOT_FOUND")))]
  /\ results (on_data ((str "DELETED" ++ CRLF) ++ str "NOT_FOUND" ++ CRLF)
                (receiving [] [pending_simple 0; pending_simple 1]))
     = Some [(0%nat, Rejected (JStr (str "DELETED")));
             (1%nat, Rejected (JStr (str "NOT_FOUND")))].
Proof. split; vm_compute; reflexivity. Qed.

(** C4, amended. The socket delivers chunks of bytes, and the listener
    decodes each chunk by itself (line 65); [toString] stands for that
    decoding. Let the chunks be such that decoding them one by one gives
    the pieces of the text decoded from all the bytes at once (so it is
    when no chunk ends inside a character, and always for ASCII), and let
    that text be the beginning (or all) of replies to the pending requests,
    in their order: each framed, an error line or a reply of its request's
    type, its header declaring no less than the length of its data, and
    with no error message in or behind a reply that is no error line.
    Then feeding the chunks one by one ends in the same instance (same
    callbacks invoked with the same results in the same order, same buffer,
    same queue) as feeding all the bytes as one chunk. *)
Theorem C4_chunk_boundaries_do_not_matter
    (toString : list Byte.byte -> jsstring)
    (queue : list pending) (replies : list reply) (rest : jsstring)
    (chunks : list (list Byte.byte)) (c : Connection) :
  toString (List.concat chunks) = List.concat (map toString chunks) ->
  answered queue replies = true -> forallb declares_enough replies = true ->
  toString (List.concat chunks) ++ rest = stream replies ->
  orderly replies (toString (List.concat chunks)) = true ->
  buffer c = [] -> callbacks c = queue ->
  feed (map toString chunks) c = on_data (toString (List.concat chunks)) c
  /\ exists c', on_data (toString (List.concat chunks)) c = Done c'.
Proof.
  intros Hc Hp Ht Hd Ho Hb Hq.
  set (data := toString (List.concat chunks)) in *.
  assert (C : conforms (callbacks c) (buffer c ++ data)).
  { rewrite Hb, Hq. now exists replies, rest. }
  split.
  - rewrite Hc. apply feed_conforming.
    + now apply handleData_empty.
    + now rewrite <- Hc.
  - unfold on_data.
    destruct (handleData_conforming (with_buffer c (buffer c ++ data)) [])
      as (c' & Hd' & _).
    + simpl. now rewrite app_nil_r.
    + now exists c'.
Qed.

(** The amended statement at NOT_FOUND, a value and the beginning of a
    status line, as ASCII bytes cut inside the error line, inside the
    header, inside the value and inside the status. *)
Lemma C4_value_and_status_in_pieces :
  let toString := map ascii_of_byte in
  let bytes := map byte_of_ascii in
  let queue := [pending_simple 0; pending_get 1; pending_simple 2] in
  let replies := [Line (str "NOT_FOUND"); hello_reply; Line (str "DELETED")] in
  let chunks := [bytes (str "NOT_"); bytes (str "FOUND" ++ CRLF ++ str "VALUE k 0");
                 bytes (str " 5" ++ CRLF ++ str "hel");
                 bytes (str "lo" ++ CRLF ++ str "END" ++ CRLF ++ str "DELE")] in
  let c := receiving [] queue in
  (toString (List.concat chunks) = List.concat (map toString chunks)
   /\ answered queue replies = true /\ forallb declares_enough replies = true
   /\ toString (List.concat chunks) ++ str "TED" ++ CRLF = stream replies
   /\ orderly replies (toString (List.concat chunks)) = true
   /\ buffer c = [] /\ callbacks c = queue)
  /\ feed (map toString chunks) c = on_data (toString (List.concat chunks)) c
  /\ exists c', on_data (toString (List.concat chunks)) c = Done c'.
Proof.
  intros toString bytes queue replies chunks c.
  split; [repeat split; vm_compute; reflexivity|].
  apply (C4_chunk_boundaries_do_not_matter toString queue replies
           (str "TED" ++ CRLF) chunks c);
    vm_compute; reflexivity.
Defined.

(** *** C5 *)

(** C5, as stated, fails: a get is pending and the buffer holds the
    header of a value of 20 bytes and the first 10 of them, with the text
    END among these. The reply has not arrived whole (24 of its 41 bytes
    are there), yet the turn takes 21 bytes off the buffer and resolves
    the request with the empty string. *)
Lemma C5_unfinished_value_consumed :
  let header := str "VALUE k 0 20" in
  let c := receiving (header ++ CRLF ++ str "abENDcdefg") [pending_get 0] in
  declared header = Num 20
  /\ length (buffer c) = 24
  /\ getHandleResult (callbacks c) (buffer c) = RArr (JStr []) (Num 21) JUndefined
  /\ handleData c
     = Done (advance c (str "efg") [] [(0%nat, Resolved (JStr []))]).
Proof. repeat split; vm_compute; reflexivity. Qed.

(** C5, amended: when the buffer holds only a beginning of a reply that
    answers the request at the head of the queue (framed, hence a value
    without the text END in it; its header declaring no less than the
    length of the data; no error message in what has arrived, unless the
    reply is an error line), the framer returns [false] or a position
    beyond the end of the buffer, and [handleData] ends with the instance
    as it was: buffer unchanged, queue unchanged, no callback invoked.
    For every buffer and queue, either of these two results leaves the
    instance as it was, a buffer without terminator gives [false], and
    whatever [handleData] takes from the buffer is a front part of it. *)
Theorem C5_unfinished_reply_left_alone
    (c : Connection) (q : pending) (queue : list pending)
    (r : reply) (k : nat) :
  callbacks c = q :: queue -> buffer c = firstn k (frame r) ->
  (k < List.length (frame r))%nat ->
  answers (type q) r = true -> declares_enough r = true ->
  is_error r || negb (has_error (buffer c)) = true ->
  waits (buffer c) (getHandleResult (callbacks c) (buffer c))
  /\ handleData c = Done c
  /\ (forall c0,
        waits (buffer c0) (getHandleResult (callbacks c0) (buffer c0)) ->
        handleData c0 = Done c0)
  /\ (forall c0,
        indexOf (buffer c0) CRLF = -1 ->
        getHandleResult (callbacks c0) (buffer c0) = RFalse)
  /\ (forall c0 c',
        handleData c0 = Done c' -> exists front, buffer c0 = front ++ buffer c').
Proof.
  intros Hq Hb Hk Ha Ht He. rewrite Hb in He.
  destruct (turn_partial c q queue r k Hq Hb Hk Ha Ht He) as [W T].
  split; [exact W|]. split; [now apply handleData_break|].
  split; [|split].
  - intros c0 W0. apply handleData_break. unfold handleData_turn.
    destruct (getHandleResult (callbacks c0) (buffer c0)); simpl in W0;
      [reflexivity|now rewrite W0|contradiction].
  - intros c0. apply getHandleResult_no_line.
  - intros c0 c'. apply handleData_takes_front.
Qed.

(** The amended statement at a value of which three bytes have arrived. *)
Lemma C5_value_still_arriving :
  let c := receiving (str "VALUE k 0 5" ++ CRLF ++ str "hel") [pending_get 0] in
  (callbacks c = [pending_get 0] /\ buffer c = firstn 16 (frame hello_reply)
   /\ (16 < List.length (frame hello_reply))%nat
   /\ answers (type (pending_get 0)) hello_reply = true
   /\ declares_enough hello_reply = true
   /\ is_error hello_reply || negb (has_error (buffer c)) = true)
  /\ waits (buffer c) (getHandleResult (callbacks c) (buffer c))
  /\ handleData c = Done c
  /\ (forall c0,
        waits (buffer c0) (getHandleResult (callbacks c0) (buffer c0)) ->
        handleData c0 = Done c0)
  /\ (forall c0,
        indexOf (buffer c0) CRLF = -1 ->
        getHandleResult (callbacks c0) (buffer c0) = RFalse)
  /\ (forall c0 c',
        handleData c0 = Done c' -> exists front, buffer c0 = front ++ buffer c').
Proof.
  intros c.
  assert (Hk : (16 < List.length (frame hello_reply))%nat)
    by (vm_compute; lia).
  split; [repeat split; try assumption; vm_compute; reflexivity|].
  apply (C5_unfinished_reply_left_alone c (pending_get 0) [] hello_reply 16);
    try assumption; vm_compute; reflexivity.
Defined.

(** *** C6 *)

(** C6, as stated, fails on the count: the reply of the example is 25
    bytes long and 25 is what the framer returns as consumed, not 26. *)
Lemma C6_hello_reply_is_25_bytes :
  getHandleResult [pending_get 0] (frame hello_reply)
  = RArr (JStr (str "hello")) (Num 25) JUndefined
  /\ length (frame hello_reply) = 25
  /\ getHandleResult [pending_get 0] (frame hello_reply)
     <> RArr (JStr (str "hello")) (Num 26) JUndefined.
Proof.
  repeat split; try (vm_compute; reflexivity).
  intros H. vm_compute in H. discriminate H.
Qed.

(** C6, amended: for a pending get request, the reply of the example
    resolves the request with hello and consumes exactly 25 bytes, the
    whole reply; a buffer that begins with END gives null and 3 plus the
    terminator length as consumed, and the reply END resolves the request
    with null and is consumed whole. *)
Theorem C6_get_hit_and_miss (c : Connection) (id : nat) :
  buffer c = [] -> callbacks c = [pending_get id] ->
  getHandleResult (callbacks c) (frame hello_reply)
  = RArr (JStr (str "hello")) (Num 25) JUndefined
  /\ on_data (frame hello_reply) c
     = Done (advance c [] [] [(id, Resolved (JStr (str "hello")))])
  /\ (forall buffer,
        indexOf buffer (str "END") = 0 ->
        handleGet buffer = RArr JNull (Num (3 + CRLF_LENGTH)) JUndefined)
  /\ on_data (frame Miss) c = Done (advance c [] [] [(id, Resolved JNull)]).
Proof.
  intros Hb Hq.
  assert (R : forall r,
             accepts (JStr (str "get")) r = true -> framed r = true ->
             has_error (frame r) = false ->
             on_data (frame r) c
             = Done (advance c [] [] [(id, expected (JStr (str "get")) r)])).
  { intros r Ha Hf He. unfold on_data.
    rewrite (handleData_stream [r] [pending_get id]).
    - unfold advance. simpl. reflexivity.
    - cbn [paired]. change (type (pending_get id)) with (JStr (str "get")).
      now rewrite Ha, Hf.
    - simpl. now rewrite app_nil_r.
    - simpl. now rewrite Hb, app_nil_r.
    - simpl. assumption. }
  rewrite Hq. split; [|split; [|split]].
  - vm_compute. reflexivity.
  - apply (R hello_reply); vm_compute; reflexivity.
  - intros b H. unfold handleGet. now rewrite H.
  - apply (R Miss); vm_compute; reflexivity.
Qed.

(** The amended statement at a connection whose only pending request is
    the get numbered 7. *)
Lemma C6_get_k_on_a_fresh_connection :
  let c := receiving [] [pending_get 7] in
  (buffer c = [] /\ callbacks c = [pending_get 7])
  /\ getHandleResult (callbacks c) (frame hello_reply)
     = RArr (JStr (str "hello")) (Num 25) JUndefined
  /\ on_data (frame hello_reply) c
     = Done (advance c [] [] [(7%nat, Resolved (JStr (str "hello")))])
  /\ (forall buffer,
        indexOf buffer (str "END") = 0 ->
        handleGet buffer = RArr JNull (Num (3 + CRLF_LENGTH)) JUndefined)
  /\ on_data (frame Miss) c = Done (advance c [] [] [(7%nat, Resolved JNull)]).
Proof.
  intros c. split; [split; reflexivity|].
  apply (C6_get_hit_and_miss c 7); reflexivity.
Defined.

(** *** C7 *)

Lemma drain_rejects kind queue :
  kind <> [] ->
  drain kind queue
  = map (fun cb => (callback cb, Rejected (JStr kind))) queue.
Proof.
  intros Hk. induction queue as [|cb queue IH]; simpl; [reflexivity|].
  rewrite IH. unfold invoke. destruct kind; [contradiction|reflexivity].
Qed.

(** C7: the ['end'] listener rejects every queued request with
    CONNECTION_CLOSED, oldest first and each exactly once, leaves the queue
    empty and sets the handle to null. *)
Theorem C7_end_fails_every_request_in_order (c : Connection) :
  settled (on_end c)
  = settled c
    ++ map (fun cb => (callback cb, Rejected (JStr (str "CONNECTION_CLOSED"))))
         (callbacks c)
  /\ callbacks (on_end c) = []
  /\ handle (on_end c) = None.
Proof.
  repeat split. simpl. now rewrite drain_rejects.
Qed.

Example end_with_three_outstanding :
  results (Done (on_end (receiving []
                          (entries [get (str "a"); delete (str "b"); version] 0))))
  = Some [(0%nat, Rejected (JStr (str "CONNECTION_CLOSED")));
          (1%nat, Rejected (JStr (str "CONNECTION_CLOSED")));
          (2%nat, Rejected (JStr (str "CONNECTION_CLOSED")))].
Proof. vm_compute. reflexivity. Qed.

(** *** C8 *)

(** C8: the ['timeout'] listener rejects the oldest queued request with
    TIMEOUT and no other, leaves the rest of the queue pending in its
    order, emits the timeout event, and touches neither the handle nor the
    buffer. *)
Theorem C8_timeout_fails_only_the_oldest
    (c : Connection) (oldest : pending) (others : list pending) :
  callbacks c = oldest :: others ->
  settled (on_timeout c)
  = settled c ++ [(callback oldest, Rejected (JStr (str "TIMEOUT")))]
  /\ callbacks (on_timeout c) = others
  /\ emitted (on_timeout c) = emitted c ++ [EvTimeout]
  /\ handle (on_timeout c) = handle c
  /\ buffer (on_timeout c) = buffer c.
Proof.
  intros H. unfold on_timeout, shift_and_call. rewrite H. simpl.
  repeat split.
Qed.

(** The statement at two outstanding queries. *)
Lemma C8_timeout_with_two_outstanding :
  let c := receiving [] [pending_get 0; pending_simple 1] in
  callbacks c = [pending_get 0; pending_simple 1]
  /\ settled (on_timeout c)
     = settled c ++ [(0%nat, Rejected (JStr (str "TIMEOUT")))]
  /\ callbacks (on_timeout c) = [pending_simple 1]
  /\ emitted (on_timeout c) = emitted c ++ [EvTimeout]
  /\ handle (on_timeout c) = handle c
  /\ buffer (on_timeout c) = buffer c.
Proof.
  intros c. split; [reflexivity|].
  apply (C8_timeout_fails_only_the_oldest c (pending_get 0) [pending_simple 1]).
  reflexivity.
Defined.

(** *** C9 *)

Lemma connect_host_undefined port' hostname' :
  handle (connect (init port' hostname'))
  = Some (createConnection (port (init port' hostname')) JUndefined).
Proof. reflexivity. Qed.

Lemma connect_idempotent c : connect (connect c) = connect c.
Proof.
  unfold connect. destruct (handle c) eqn:H; simpl; [now rewrite H|reflexivity].
Qed.

Lemma init_defaults :
  port (init None None) = 11211 /\ hostname (init None None) = str "127.0.0.1".
Proof. split; reflexivity. Qed.


(** C9 at the failing input: a connection constructed for port 11211 on
    host 10.0.0.5 keeps that name in [hostname], yet [connect] opens the
    socket with the port and an undefined host, because it reads
    [this.host]. *)
Theorem C9_connect_ignores_hostname :
  let c := connect (init (Some 11211) (Some (str "10.0.0.5"))) in
  hostname c = str "10.0.0.5"
  /\ handle c = Some (createConnection 11211 JUndefined)
  /\ option_map remoteHost (handle c) <> Some (JStr (str "10.0.0.5")).
Proof. repeat split. discriminate. Qed.

(** *** C10 *)

(** C10, as stated, fails in its account of a turn: with the buffer
    [x CRLF] and two get requests pending, the header has no length field,
    the position computed is NaN, and the turn goes on to the next one
    with every byte still in the buffer. *)
Lemma C10_turn_without_progress :
  let c := receiving (str "x" ++ CRLF) [pending_get 0; pending_get 1] in
  getHandleResult (callbacks c) (buffer c) = RArr (JStr []) NaN JUndefined
  /\ handleData_turn c
     = Continue (advance c (buffer c) [pending_get 1]
                   [(0%nat, Resolved (JStr []))])
  /\ results (handleData c)
     = Some [(0%nat, Resolved (JStr [])); (1%nat, Resolved (JStr []))].
Proof. repeat split; vm_compute; reflexivity. Qed.

(** C10, amended: for every buffer and every queue the parse loop
    terminates: the turns [handleData] allows itself are enough, more
    change nothing, and every turn either exits or goes on with a shorter
    buffer or a shorter queue, never with a longer buffer (it may consume
    no byte when a get reply's header has no numeric length, and then
    takes a request off the queue). *)
Theorem C10_parse_loop_terminates (c : Connection) :
  handleData c <> OutOfFuel
  /\ (forall fuel, (turns c <= fuel)%nat -> handleData_loop fuel c = handleData c)
  /\ (forall c',
        handleData_turn c = Continue c' ->
        (List.length (buffer c') + List.length (callbacks c')
         < List.length (buffer c) + List.length (callbacks c))%nat
        /\ (List.length (buffer c') <= List.length (buffer c))%nat).
Proof.
  assert (E : handleData c <> OutOfFuel).
  { apply handleData_loop_enough. unfold turns. lia. }
  repeat split.
  - exact E.
  - intros fuel Hf. now apply handleData_loop_more.
  - now apply turn_decreases.
  - destruct (turn_buffer_tail _ _ H) as [front ->].
    rewrite List.length_app. lia.
Qed.

(** ** Further properties of the adapter *)

(** *** Lines *)

Lemma readLine_absent s : indexOf s CRLF = -1 -> readLine s = s.
Proof. unfold readLine. now intros ->. Qed.

(** A buffer with a terminator splits into its first line, the terminator
    and the rest. *)
Lemma first_line_split b :
  indexOf b CRLF <> -1 ->
  exists line rest,
    b = line ++ CRLF ++ rest /\ indexOf (line ++ CRLF) CRLF = length line
    /\ indexOf line CRLF = -1 /\ readLine b = line.
Proof.
  intros H.
  assert (P : 0 <= indexOf b CRLF).
  { destruct (indexOf_absent_or_found b CRLF) as [?|[? _]];
      [contradiction|assumption]. }
  destruct (readLine_found _ P) as (_ & Hl & Hn & rest & Hr).
  exists (readLine b), rest. repeat split; try assumption.
  pose proof (indexOf_search _ _ _ P eq_refl) as S.
  remember (Z.to_nat (indexOf b CRLF)) as i eqn:Hi.
  pose proof (search_firstn_found _ _ _ (i + List.length CRLF) S (le_n _)) as F.
  assert (L : (i + List.length CRLF = List.length (readLine b ++ CRLF))%nat).
  { rewrite List.length_app. unfold length in Hl. lia. }
  assert (E : firstn (i + List.length CRLF) b = readLine b ++ CRLF).
  { rewrite Hr at 1. rewrite L, app_assoc, firstn_app, firstn_all, Nat.sub_diag.
    simpl. apply app_nil_r. }
  rewrite E in F. rewrite (indexOf_some _ _ _ F). lia.
Qed.

(** X1. [readLine] returns the text before the first terminator: its
    result holds no terminator, reading a line twice changes nothing, a
    string without terminator is returned whole, and otherwise the string
    is the line, the terminator and a rest. *)
Theorem readLine_is_first_line (s : jsstring) :
  indexOf (readLine s) CRLF = -1
  /\ readLine (readLine s) = readLine s
  /\ (indexOf s CRLF = -1 -> readLine s = s)
  /\ (indexOf s CRLF <> -1 -> exists rest, s = readLine s ++ CRLF ++ rest).
Proof.
  assert (N : indexOf (readLine s) CRLF = -1).
  { destruct (Z.eq_dec (indexOf s CRLF) (-1)) as [E|E].
    - now rewrite readLine_absent.
    - destruct (first_line_split s E) as (line & rest & _ & _ & Hn & ->).
      exact Hn. }
  repeat split.
  - exact N.
  - now apply readLine_absent.
  - apply readLine_absent.
  - intros E. destruct (first_line_split s E) as (line & rest & Hs & _ & _ & Hr).
    exists rest. now rewrite Hr.
Qed.

(** *** One turn on a line reply *)

Section LineReplies.

Variables (c : Connection) (q : pending) (queue : list pending).
Hypothesis Hq : callbacks c = q :: queue.
Hypothesis Hc : indexOf (buffer c) CRLF <> -1.

Lemma line_turn (type' : string) :
  type q = JStr (str type') ->
  accepts (JStr (str type')) (Line (readLine (buffer c))) = true ->
  has_error (buffer c) = false ->
  exists line rest,
    buffer c = line ++ CRLF ++ rest /\ indexOf line CRLF = -1
    /\ handleData_turn c
       = Continue (advance c rest queue
                     [(callback q, expected (JStr (str type')) (Line line))]).
Proof.
  intros Ht Ha He.
  destruct (first_line_split _ Hc) as (line & rest & Hb & Hl & Hn & Hr).
  exists line, rest. repeat split; try assumption.
  rewrite Hr in Ha. rewrite <- Ht in *.
  apply (turn_complete c q queue (Line line) rest); try assumption.
  - simpl. now rewrite <- app_assoc.
  - simpl. now apply Z.eqb_eq.
  - simpl. now rewrite <- app_assoc, <- Hb.
Qed.

(** X2. For a request of type simple at the head of the queue, a buffer
    with a terminator and no error message: the turn resolves the request
    with the first line, takes that line and its terminator off the buffer
    and the request off the queue, and leaves the rest. *)
Theorem simple_reply_takes_first_line :
  type q = JStr (str "simple") ->
  has_error (buffer c) = false ->
  exists line rest,
    buffer c = line ++ CRLF ++ rest /\ indexOf line CRLF = -1
    /\ handleData_turn c
       = Continue (advance c rest queue [(callback q, Resolved (JStr line))]).
Proof. intros Ht He. now apply (line_turn "simple"). Qed.

(** X3. For a request of type version at the head of the queue, a buffer
    with a terminator and no error message: the turn resolves the request
    with the first line less its first eight characters, whatever they
    are (the empty string when the line has eight or fewer), and takes the
    line and its terminator off the buffer. *)
Theorem version_reply_drops_eight_characters :
  type q = JStr (str "version") ->
  has_error (buffer c) = false ->
  exists line rest,
    buffer c = line ++ CRLF ++ rest /\ indexOf line CRLF = -1
    /\ handleData_turn c
       = Continue (advance c rest queue
                     [(callback q, Resolved (JStr (skipn 8 line)))]).
Proof. intros Ht He. now apply (line_turn "version"). Qed.

(** X4. Whatever the type of the request at the head of the queue, when
    the buffer holds a terminator and an error message anywhere, the turn
    takes the first line and its terminator off the buffer and settles the
    head request with that line: rejected with the line, or, the line
    being empty and so falsy, resolved with null. *)
Theorem error_line_settles_head_request :
  has_error (buffer c) = true ->
  exists line rest,
    buffer c = line ++ CRLF ++ rest /\ indexOf line CRLF = -1
    /\ handleData_turn c
       = Continue (advance c rest queue [(callback q, error_settlement line)])
    /\ error_settlement line
       = match line with
         | [] => Resolved JNull
         | _ :: _ => Rejected (JStr line)
         end.
Proof.
  intros He.
  destruct (first_line_split _ Hc) as (line & rest & Hb & Hl & Hn & Hr).
  exists line, rest. repeat split; try assumption.
  - rewrite (error_turn c line rest Hb Hl He).
    unfold shift_and_call, with_buffer, advance. simpl. now rewrite Hq.
  - now destruct line.
Qed.

End LineReplies.

(** X2 at two status lines in the buffer. *)
Lemma simple_reply_witness :
  let c := receiving (str "STORED" ++ CRLF ++ str "DELETED" ++ CRLF)
             [pending_simple 0; pending_simple 1] in
  (callbacks c = [pending_simple 0; pending_simple 1]
   /\ indexOf (buffer c) CRLF <> -1
   /\ type (pending_simple 0) = JStr (str "simple")
   /\ has_error (buffer c) = false)
  /\ exists line rest,
       buffer c = line ++ CRLF ++ rest /\ indexOf line CRLF = -1
       /\ handleData_turn c
          = Continue (advance c rest [pending_simple 1]
                        [(0%nat, Resolved (JStr line))]).
Proof.
  intros c.
  assert (H2 : indexOf (buffer c) CRLF <> -1) by (vm_compute; discriminate).
  split; [repeat split; try assumption; vm_compute; reflexivity|].
  apply (simple_reply_takes_first_line c (pending_simple 0) [pending_simple 1]);
    try assumption; vm_compute; reflexivity.
Defined.

(** X3 at the reply to a version query. *)
Lemma version_reply_witness :
  let q := {| type := JStr (str "version"); callback := 0 |} in
  let c := receiving (str "VERSION 1.4.5" ++ CRLF) [q] in
  (callbacks c = [q] /\ indexOf (buffer c) CRLF <> -1
   /\ type q = JStr (str "version") /\ has_error (buffer c) = false)
  /\ exists line rest,
       buffer c = line ++ CRLF ++ rest /\ indexOf line CRLF = -1
       /\ handleData_turn c
          = Continue (advance c rest []
                        [(0%nat, Resolved (JStr (skipn 8 line)))]).
Proof.
  intros q c.
  assert (H2 : indexOf (buffer c) CRLF <> -1) by (vm_compute; discriminate).
  split; [repeat split; try assumption; vm_compute; reflexivity|].
  apply (version_reply_drops_eight_characters c q []);
    try assumption; vm_compute; reflexivity.
Defined.

(** X4 at a delete answered with NOT_FOUND. *)
Lemma error_line_witness :
  let c := receiving (str "NOT_FOUND" ++ CRLF) [pending_simple 0] in
  (callbacks c = [pending_simple 0] /\ indexOf (buffer c) CRLF <> -1
   /\ has_error (buffer c) = true)
  /\ exists line rest,
       buffer c = line ++ CRLF ++ rest /\ indexOf line CRLF = -1
       /\ handleData_turn c
          = Continue (advance c rest [] [(0%nat, error_settlement line)])
       /\ error_settlement line
          = match line with
            | [] => Resolved JNull
            | _ :: _ => Rejected (JStr line)
            end.
Proof.
  intros c.
  assert (H2 : indexOf (buffer c) CRLF <> -1) by (vm_compute; discriminate).
  split; [repeat split; try assumption; vm_compute; reflexivity|].
  apply (error_line_settles_head_request c (pending_simple 0) []);
    try assumption; vm_compute; reflexivity.
Defined.

(** *** What the loop keeps *)

Lemma same_session_refl c : same_session c c.
Proof. now repeat split. Qed.

Lemma same_session_trans c1 c2 c3 :
  same_session c1 c2 -> same_session c2 c3 -> same_session c1 c3.
Proof.
  intros (A1 & A2 & A3 & A4) (B1 & B2 & B3 & B4).
  repeat split; congruence.
Qed.

(** A turn that continues settles the head request, if there is one,
    and writes nothing but buffer, queue and settlements. *)
Lemma turn_settles_head c c' :
  handleData_turn c = Continue c' ->
  same_session c c'
  /\ (exists front, buffer c = front ++ buffer c')
  /\ exists taken outs,
       callbacks c = taken ++ callbacks c'
       /\ settled c' = settled c ++ outs
       /\ map fst outs = map callback taken.
Proof.
  intros T. split; [|split].
  - unfold handleData_turn in T.
    destruct (getHandleResult _ _) as [|v pos e|]; try discriminate.
    destruct (gt pos _); [discriminate|]. injection T as <-.
    unfold shift_and_call. simpl.
    destruct (callbacks c); now repeat split.
  - now apply turn_buffer_tail.
  - unfold handleData_turn in T.
    destruct (getHandleResult _ _) as [|v pos e|]; try discriminate.
    destruct (gt pos _); [discriminate|]. injection T as <-.
    unfold shift_and_call. simpl.
    destruct (callbacks c) as [|cb rest] eqn:Q; simpl.
    + exists [], []. rewrite app_nil_r. now rewrite Q.
    + exists [cb], [(callback cb, invoke e v)]. now repeat split.
Qed.

Lemma loop_settles_queue_front fuel : forall c c',
  final (handleData_loop fuel c) = Some c' ->
  same_session c c'
  /\ (exists front, buffer c = front ++ buffer c')
  /\ exists taken outs,
       callbacks c = taken ++ callbacks c'
       /\ settled c' = settled c ++ outs
       /\ map fst outs = map callback taken.
Proof.
  induction fuel as [|fuel IH]; intros c c' H; [discriminate|].
  rewrite handleData_loop_S in H.
  assert (Stay : c' = c ->
            same_session c c'
            /\ (exists front, buffer c = front ++ buffer c')
            /\ exists taken outs,
                 callbacks c = taken ++ callbacks c'
                 /\ settled c' = settled c ++ outs
                 /\ map fst outs = map callback taken).
  { intros ->. split; [apply same_session_refl|].
    split; [now exists []|]. exists [], []. now rewrite app_nil_r. }
  destruct (length (buffer c) >? 0); [|injection H as <-; now apply Stay].
  destruct (handleData_turn c) as [| |c1] eqn:T;
    try (injection H as <-; now apply Stay).
  destruct (turn_settles_head _ _ T) as (S1 & (f1 & B1) & t1 & o1 & Q1 & R1 & M1).
  destruct (IH _ _ H) as (S2 & (f2 & B2) & t2 & o2 & Q2 & R2 & M2).
  split; [now apply (same_session_trans _ c1)|]. split.
  - exists (f1 ++ f2). now rewrite B1, B2, app_assoc.
  - exists (t1 ++ t2), (o1 ++ o2). repeat split.
    + now rewrite Q1, Q2, app_assoc.
    + now rewrite R2, R1, app_assoc.
    + now rewrite !map_app, M1, M2.
Qed.

(** X5. Whatever the buffer holds and whatever is queued, when
    [handleData] ends (normally or by raising) the requests it has
    settled are a front part of the queue, each settled once and in queue
    order, the others are still queued in their order, what it took from
    the buffer is a front part of it, and port, host name, handle and
    emitted events are untouched. *)
Theorem handleData_settles_a_front_of_the_queue (c c' : Connection) :
  final (handleData c) = Some c' ->
  same_session c c'
  /\ (exists front, buffer c = front ++ buffer c')
  /\ exists taken outs,
       callbacks c = taken ++ callbacks c'
       /\ settled c' = settled c ++ outs
       /\ map fst outs = map callback taken.
Proof. apply loop_settles_queue_front. Qed.

(** X5 at a value and a status line with a get and a simple request. *)
Lemma handleData_front_witness :
  let c := receiving (frame hello_reply ++ str "STORED" ++ CRLF)
             [pending_get 4; pending_simple 5; pending_get 6] in
  let c' := advance c [] [pending_get 6]
              [(4%nat, Resolved (JStr (str "hello")));
               (5%nat, Resolved (JStr (str "STORED")))] in
  final (handleData c) = Some c'
  /\ same_session c c'
  /\ (exists front, buffer c = front ++ buffer c')
  /\ exists taken outs,
       callbacks c = taken ++ callbacks c'
       /\ settled c' = settled c ++ outs
       /\ map fst outs = map callback taken.
Proof.
  intros c c'.
  assert (H : final (handleData c) = Some c') by (vm_compute; reflexivity).
  split; [exact H|].
  exact (handleData_settles_a_front_of_the_queue c c' H).
Defined.

(** X6. Once [handleData] has ended normally, a data event that brings
    nothing, or running [handleData] again, changes nothing: what it left
    in the buffer it leaves there until more data arrive. *)
Theorem handleData_again_changes_nothing (c c' : Connection) :
  handleData c = Done c' ->
  handleData c' = Done c' /\ on_data [] c' = Done c'.
Proof.
  intros H.
  assert (S : handleData c' = Done c')
    by exact (handleData_loop_stable _ _ _ H).
  split; [exact S|].
  unfold on_data. now rewrite app_nil_r, with_buffer_same.
Qed.

(** X6 at a value of which three bytes have arrived. *)
Lemma handleData_again_witness :
  let c := receiving (str "STORED" ++ CRLF ++ str "VALUE k 0 5" ++ CRLF ++ str "hel")
             [pending_simple 0; pending_get 1] in
  let c' := advance c (str "VALUE k 0 5" ++ CRLF ++ str "hel") [pending_get 1]
              [(0%nat, Resolved (JStr (str "STORED")))] in
  handleData c = Done c'
  /\ handleData c' = Done c' /\ on_data [] c' = Done c'.
Proof.
  intros c c'.
  assert (H : handleData c = Done c') by (vm_compute; reflexivity).
  split; [exact H|].
  exact (handleData_again_changes_nothing c c' H).
Defined.

Lemma getHandleResult_unusable queue b :
  head_usable queue = false -> has_error b = false ->
  getHandleResult queue b = RFalse.
Proof.
  unfold getHandleResult, has_error. intros Hh ->.
  destruct (indexOf b CRLF =? -1); [reflexivity|].
  destruct queue as [|q queue]; [reflexivity|].
  simpl in Hh. destruct (type q) as [| |[|a t]]; try reflexivity.
  discriminate.
Qed.

(** X7. When the queue is empty, or the request at its head has no type
    (undefined, null or the empty string), data that leave the buffer
    without error message are only appended to it: no byte is consumed, no
    callback is invoked and the queue stays as it is, however many replies
    the data hold. *)
Theorem data_without_usable_head_only_accumulate
    (c : Connection) (data : jsstring) :
  head_usable (callbacks c) = false ->
  has_error (buffer c ++ data) = false ->
  on_data data c = Done (with_buffer c (buffer c ++ data)).
Proof.
  intros Hh He. unfold on_data. apply handleData_break.
  unfold handleData_turn. simpl.
  now rewrite getHandleResult_unusable.
Qed.

(** X7 at a reply that nobody asked for and at a request without type. *)
Lemma data_without_usable_head_witness :
  let data := str "STORED" ++ CRLF in
  let c := receiving [] [{| type := JUndefined; callback := 0 |}; pending_get 1] in
  (head_usable (callbacks ready) = false
   /\ has_error (buffer ready ++ data) = false
   /\ head_usable (callbacks c) = false
   /\ has_error (buffer c ++ data) = false)
  /\ on_data data ready = Done (with_buffer ready (buffer ready ++ data))
  /\ on_data data c = Done (with_buffer c (buffer c ++ data)).
Proof.
  intros data c.
  split; [repeat split; vm_compute; reflexivity|]. split.
  - apply (data_without_usable_head_only_accumulate ready data);
      vm_compute; reflexivity.
  - apply (data_without_usable_head_only_accumulate c data);
      vm_compute; reflexivity.
Defined.

(** *** Reply types *)

Lemma toUpperCase1_toLowerCase1 a :
  toUpperCase1 (toLowerCase1 a) = toUpperCase1 a.
Proof. destruct a as [[] [] [] [] [] [] [] []]; reflexivity. Qed.

Lemma ucfirst_letter_case t t' :
  toLowerCase t = toLowerCase t' -> ucfirst t = ucfirst t'.
Proof.
  destruct t as [|a t], t' as [|a' t']; simpl; try discriminate; [reflexivity|].
  intros [= Ha Ht]. unfold toLowerCase in *. rewrite Ht. f_equal.
  now rewrite <- toUpperCase1_toLowerCase1, Ha, toUpperCase1_toLowerCase1.
Qed.

(** X8. The reply type of a request is read without regard to letter
    case: two requests whose types differ only in the case of their
    letters get the same result from the framer on every buffer. *)
Theorem reply_type_ignores_letter_case
    (q q' : pending) (queue queue' : list pending) (t t' buffer : jsstring) :
  type q = JStr t -> type q' = JStr t' ->
  toLowerCase t = toLowerCase t' ->
  getHandleResult (q :: queue) buffer = getHandleResult (q' :: queue') buffer.
Proof.
  intros Hq Hq' Hl. unfold getHandleResult. rewrite Hq, Hq'.
  rewrite (ucfirst_letter_case _ _ Hl).
  destruct t as [|a t], t' as [|a' t']; try discriminate; reflexivity.
Qed.

(** X8 at GET and get. *)
Lemma reply_type_letter_case_witness :
  let q := {| type := JStr (str "GET"); callback := 0 |} in
  (type q = JStr (str "GET") /\ type (pending_get 1) = JStr (str "get")
   /\ toLowerCase (str "GET") = toLowerCase (str "get"))
  /\ getHandleResult [q] (frame hello_reply)
     = getHandleResult [pending_get 1; pending_simple 2] (frame hello_reply).
Proof.
  intros q. split; [repeat split|].
  apply (reply_type_ignores_letter_case q (pending_get 1) []
           [pending_simple 2] (str "GET") (str "get"));
    reflexivity.
Defined.

Lemma handleData_raise c :
  buffer c <> [] -> handleData_turn c = Raise -> handleData c = Threw c.
Proof.
  intros Hb T. unfold handleData, turns. rewrite handleData_loop_S, T.
  destruct (buffer c); [contradiction|reflexivity].
Qed.

Lemma dispatch_unknown t buffer :
  known_type t = false -> dispatch (ucfirst t) buffer = RThrow.
Proof.
  unfold known_type, dispatch. cbn [existsb].
  destruct (list_eq_dec ascii_dec (ucfirst t) (str "Get"));
    [intros; discriminate|].
  destruct (list_eq_dec ascii_dec (ucfirst t) (str "Simple"));
    [intros; discriminate|].
  destruct (list_eq_dec ascii_dec (ucfirst t) (str "Version"));
    [intros; discriminate|].
  destruct (list_eq_dec ascii_dec (ucfirst t) (str "Error"));
    [intros; discriminate|].
  reflexivity.
Qed.

Lemma handleGet_returns buffer : handleGet buffer <> RThrow.
Proof.
  unfold handleGet.
  destruct (indexOf buffer (str "END") =? 0); [discriminate|].
  destruct (_ && _); discriminate.
Qed.

Lemma dispatch_known t buffer :
  known_type t = true -> dispatch (ucfirst t) buffer <> RThrow.
Proof.
  unfold known_type, dispatch. cbn [existsb].
  destruct (list_eq_dec ascii_dec (ucfirst t) (str "Get"));
    [intros _; apply handleGet_returns|].
  destruct (list_eq_dec ascii_dec (ucfirst t) (str "Simple"));
    [intros; discriminate|].
  destruct (list_eq_dec ascii_dec (ucfirst t) (str "Version"));
    [intros; discriminate|].
  destruct (list_eq_dec ascii_dec (ucfirst t) (str "Error"));
    intros; discriminate.
Qed.

(** X9. A request whose type is a non-empty string other than get,
    simple, version or error (in any letter case) makes the data listener
    raise as soon as the buffer holds a terminator and no error message:
    the method looked up does not exist. Nothing is consumed, no callback
    is invoked, and the request stays at the head of the queue. *)
Theorem unknown_reply_type_raises
    (c : Connection) (q : pending) (queue : list pending)
    (t data : jsstring) :
  callbacks c = q :: queue -> type q = JStr t -> t <> [] ->
  known_type t = false ->
  indexOf (buffer c ++ data) CRLF <> -1 ->
  has_error (buffer c ++ data) = false ->
  on_data data c = Threw (with_buffer c (buffer c ++ data)).
Proof.
  intros Hq Ht Hn Hk Hc He. unfold on_data. apply handleData_raise.
  - simpl. intros E. rewrite E in Hc. now apply Hc.
  - unfold handleData_turn. simpl. rewrite Hq.
    rewrite (getHandleResult_dispatch _ _ _ _ Hc He Ht Hn).
    now rewrite dispatch_unknown.
Qed.

(** X9 at a request of type [list]. *)
Lemma unknown_reply_type_witness :
  let q := {| type := JStr (str "list"); callback := 0 |} in
  let c := receiving [] [q; pending_get 1] in
  let data := str "STORED" ++ CRLF in
  (callbacks c = [q; pending_get 1] /\ type q = JStr (str "list")
   /\ str "list" <> [] /\ known_type (str "list") = false
   /\ indexOf (buffer c ++ data) CRLF <> -1
   /\ has_error (buffer c ++ data) = false)
  /\ on_data data c = Threw (with_buffer c (buffer c ++ data)).
Proof.
  intros q c data.
  assert (H3 : str "list" <> []) by discriminate.
  assert (H5 : indexOf (buffer c ++ data) CRLF <> -1)
    by (vm_compute; discriminate).
  split; [repeat split; try assumption; vm_compute; reflexivity|].
  apply (unknown_reply_type_raises c q [pending_get 1] (str "list") data);
    try assumption; vm_compute; reflexivity.
Defined.

Lemma from_facade_type r :
  from_facade r ->
  snd r = JStr (str "get") \/ snd r = JStr (str "simple")
  \/ snd r = JStr (str "version").
Proof. intros []; simpl; auto. Qed.

Lemma facade_request_known q t :
  facade_request q -> type q = JStr t -> known_type t = true.
Proof.
  intros (r & Hr & Hq) Ht. rewrite Hq in Ht.
  destruct (from_facade_type r Hr) as [E|[E|E]]; rewrite E in Ht;
    injection Ht as <-; reflexivity.
Qed.

Lemma turn_never_raises c :
  Forall facade_request (callbacks c) -> handleData_turn c <> Raise.
Proof.
  intros Hf. unfold handleData_turn, getHandleResult.
  destruct (indexOf (buffer c) CRLF =? -1); [discriminate|].
  destruct (existsb _ ERRORS).
  { unfold handleError. now destruct (gt _ _). }
  destruct (callbacks c) as [|q queue]; [discriminate|].
  inversion Hf as [|? ? Hq _]; subst.
  destruct (type q) as [| |[|a t]] eqn:Ht; try discriminate.
  pose proof (dispatch_known (a :: t) (buffer c)
                (facade_request_known q _ Hq Ht)) as D.
  destruct (dispatch (ucfirst (a :: t)) (buffer c)); try discriminate.
  - now destruct (gt _ _).
  - contradiction.
Qed.

Lemma turn_keeps_facade c c' :
  handleData_turn c = Continue c' ->
  Forall facade_request (callbacks c) -> Forall facade_request (callbacks c').
Proof.
  intros T Hf.
  destruct (turn_settles_head _ _ T) as (_ & _ & taken & outs & Q & _).
  rewrite Q in Hf. now apply Forall_app in Hf.
Qed.

Lemma loop_never_raises fuel : forall c,
  Forall facade_request (callbacks c) ->
  handleData_loop fuel c <> OutOfFuel ->
  exists c', handleData_loop fuel c = Done c'.
Proof.
  induction fuel as [|fuel IH]; intros c Hf Ho; [now contradiction Ho|].
  rewrite handleData_loop_S in *.
  destruct (length (buffer c) >? 0); [|now exists c].
  pose proof (turn_never_raises c Hf) as N.
  destruct (handleData_turn c) as [| |c1] eqn:T.
  - now exists c.
  - contradiction.
  - apply IH; [now apply (turn_keeps_facade c)|assumption].
Qed.

(** X10. Every method of the facade (get, delete, version, increment,
    decrement and the five ways to store) hands [query] a reply type the
    adapter has a handler for. So when every queued request comes from the
    facade, the data listener never raises: whatever bytes arrive, it ends
    normally. *)
Theorem facade_requests_never_raise (c : Connection) (data : jsstring) :
  Forall facade_request (callbacks c) ->
  exists c', on_data data c = Done c'.
Proof.
  intros Hf. unfold on_data, handleData.
  apply loop_never_raises; [assumption|].
  apply handleData_loop_enough. unfold turns. lia.
Qed.

(** X10 at a set, an increment and a get, with bytes that are no reply. *)
Lemma facade_requests_witness :
  let queue := entries [Facade.set (str "k") (str "v") None None;
                        Facade.increment (str "n") None; get (str "k")] 0 in
  Forall facade_request queue
  /\ exists c', on_data (str "a b c" ++ CRLF ++ str "?") (receiving [] queue)
                = Done c'.
Proof.
  intros queue.
  assert (H : Forall facade_request queue).
  { repeat constructor.
    - exists (Facade.set (str "k") (str "v") None None).
      split; [apply facade_store|reflexivity].
    - exists (Facade.increment (str "n") None).
      split; [apply facade_increment|reflexivity].
    - exists (get (str "k")). split; [apply facade_get|reflexivity]. }
  split; [exact H|].
  exact (facade_requests_never_raise (receiving [] queue)
           (str "a b c" ++ CRLF ++ str "?") H).
Defined.

Lemma entries_spec queries : forall id,
  map type (entries queries id) = map snd queries
  /\ map callback (entries queries id) = seq id (List.length queries).
Proof.
  induction queries as [|[text type'] queries IH]; intros id; simpl;
    [now split|].
  destruct (IH (S id)) as [-> ->]. now split.
Qed.

(** *** Queries and the readiness promise *)








(** A get issued on a new adapter, the socket connecting, and a reply
    arriving: the get is still waiting and the reply stays in the buffer. *)
Example get_waits_for_ever :
  let a := history [Query (str "get k") (JStr (str "get")) 0; SocketConnect 0;
                    SocketData (frame hello_reply)]
             (construct None None) in
  waiting a = [{| command := str "get k"; reply_type := JStr (str "get");
                  completion := 0 |}]
  /\ callbacks (instance a) = [] /\ settled (instance a) = []
  /\ buffer (instance a) = frame hello_reply
  /\ option_map written (handle (instance a)) = Some [].
Proof. repeat split; vm_compute; reflexivity. Qed.

(** *** Numerals and the length field of [store] *)

Ltac each_digit d H :=
  assert (d = 0 \/ d = 1 \/ d = 2 \/ d = 3 \/ d = 4 \/ d = 5 \/ d = 6
          \/ d = 7 \/ d = 8 \/ d = 9) as H by (unfold is_digit in *; lia);
  repeat (destruct H as [H|H]; [subst d|]); [..|subst d].

Lemma digitValue_digitChar d : is_digit d -> digitValue 10 (digitChar d) = Some d.
Proof. intros H. each_digit d E; reflexivity. Qed.

Lemma trimStart_digit d s :
  is_digit d -> trimStart (digitChar d :: s) = digitChar d :: s.
Proof. intros H. each_digit d E; reflexivity. Qed.

Lemma takeSign_digit d s :
  is_digit d -> takeSign (digitChar d :: s) = (1, digitChar d :: s).
Proof. intros H. each_digit d E; reflexivity. Qed.

Lemma hexPrefix_numeral d ds tail :
  is_digit d -> Forall is_digit ds ->
  hexPrefix (map digitChar (d :: ds) ++ CRLF ++ tail) = None.
Proof.
  intros H Hs. destruct ds as [|d2 ds].
  - each_digit d E; reflexivity.
  - inversion Hs as [|? ? H2 _]; subst.
    each_digit d E; try reflexivity.
    each_digit d2 E2; reflexivity.
Qed.

Lemma takeDigits_numeral ds tail :
  Forall is_digit ds ->
  takeDigits 10 (map digitChar ds ++ CRLF ++ tail) = (ds, CRLF ++ tail).
Proof.
  induction ds as [|d ds IH]; intros H; [reflexivity|].
  inversion H as [|? ? Hd Hs]; subst.
  change (map digitChar (d :: ds) ++ CRLF ++ tail)
    with (digitChar d :: (map digitChar ds ++ CRLF ++ tail)).
  cbn [takeDigits]. now rewrite (digitValue_digitChar d Hd), (IH Hs).
Qed.

(** A safe integer that is not negative is its own Number value. *)
Lemma numberValue_safe n : 0 <= n < 2 ^ 53 -> numberValue n 1 = Num n.
Proof.
  intros H. unfold numberValue.
  destruct (n =? 0) eqn:Z0; [apply Z.eqb_eq in Z0; now subst|].
  apply Z.eqb_neq in Z0.
  change (Z.log2 1) with 0. rewrite Z.sub_0_r.
  pose proof (Z.log2_nonneg n) as L0.
  assert (L : Z.log2 n < 53) by (apply Z.log2_lt_pow2; lia).
  destruct (0 <=? Z.log2 n) eqn:G; [|lia].
  pose proof (Z.log2_spec n ltac:(lia)) as [S1 S2].
  rewrite Z.mul_1_l.
  destruct (2 ^ Z.log2 n <=? n) eqn:G2; [|lia].
  replace (Z.max (Z.log2 n) (-1022)) with (Z.log2 n) by lia.
  assert (R : forall a, roundHalfEven a 1 = a).
  { intros a. unfold roundHalfEven. rewrite Z.div_1_r, Z.mod_1_r. reflexivity. }
  destruct (0 <=? Z.log2 n - 52) eqn:G3.
  - assert (E : Z.log2 n - 52 = 0) by lia. rewrite E.
    change (2 ^ 0) with 1. rewrite !Z.mul_1_r, R.
    destruct (2 ^ 1024 <=? n) eqn:G4; [|reflexivity].
    apply Z.leb_le in G4.
    assert (2 ^ 53 < 2 ^ 1024) by (apply Z.pow_lt_mono_r; lia). lia.
  - rewrite R. f_equal. apply Z.div_mul.
    apply Z.pow_nonzero; lia.
Qed.

(** [parseInt] reads a decimal numeral of a safe integer that a
    terminator ends. *)
Lemma parseInt_numeral ds tail :
  ds <> [] -> Forall is_digit ds -> 0 <= digitsValue 10 ds < 2 ^ 53 ->
  parseInt (map digitChar ds ++ CRLF ++ tail) = Num (digitsValue 10 ds).
Proof.
  intros Hn H Hsafe. destruct ds as [|d ds]; [contradiction|].
  inversion H as [|? ? Hd Hs]; subst.
  unfold parseInt.
  change (map digitChar (d :: ds) ++ CRLF ++ tail)
    with (digitChar d :: (map digitChar ds ++ CRLF ++ tail)).
  rewrite (trimStart_digit d _ Hd), (takeSign_digit d _ Hd).
  change (digitChar d :: (map digitChar ds ++ CRLF ++ tail))
    with (map digitChar (d :: ds) ++ CRLF ++ tail).
  rewrite (hexPrefix_numeral d ds tail Hd Hs), (takeDigits_numeral _ _ H).
  rewrite (numberValue_safe _ Hsafe). simpl signed. f_equal.
  destruct (digitsValue 10 (d :: ds)); reflexivity.
Qed.

Lemma digitsValue_snoc ds d :
  digitsValue 10 (ds ++ [d]) = digitsValue 10 ds * 10 + d.
Proof. unfold digitsValue. now rewrite fold_left_app. Qed.

(** The digits [digitsOf] writes, given fuel for them. *)
Lemma digitsOf_spec fuel : forall n acc,
  0 <= n < 2 ^ Z.of_nat (S fuel) ->
  exists ds,
    ds <> [] /\ Forall is_digit ds /\ digitsValue 10 ds = n
    /\ digitsOf (S fuel) n acc = map digitChar ds ++ acc.
Proof.
  assert (Small : forall fuel n acc, 0 <= n -> (n <? 10) = true ->
            exists ds,
              ds <> [] /\ Forall is_digit ds /\ digitsValue 10 ds = n
              /\ digitsOf (S fuel) n acc = map digitChar ds ++ acc).
  { intros f n acc Hn Hlt. exists [n]. split; [|split; [|split]].
    - discriminate.
    - repeat constructor; unfold is_digit; lia.
    - unfold digitsValue. simpl. lia.
    - cbn [digitsOf]. rewrite Hlt, Z.mod_small by lia. reflexivity. }
  induction fuel as [|fuel IH]; intros n acc Hn.
  - apply Small; [lia|]. change (2 ^ Z.of_nat 1) with 2 in Hn. lia.
  - destruct (n <? 10) eqn:Hlt; [apply Small; [lia|assumption]|].
    assert (Hdiv : 0 <= n / 10 < 2 ^ Z.of_nat (S fuel)).
    { split; [apply Z.div_pos; lia|].
      apply Z.div_lt_upper_bound; [lia|].
      rewrite (Nat2Z.inj_succ (S fuel)), Z.pow_succ_r in Hn by lia. lia. }
    destruct (IH (n / 10) (digitChar (n mod 10) :: acc) Hdiv)
      as (ds & Hne & Hd & Hv & He).
    exists (ds ++ [n mod 10]). split; [|split; [|split]].
    + now destruct ds.
    + apply Forall_app. split; [assumption|].
      repeat constructor; unfold is_digit;
        pose proof (Z.mod_pos_bound n 10); lia.
    + rewrite digitsValue_snoc, Hv.
      pose proof (Z.div_mod n 10). lia.
    + change (digitsOf (S (S fuel)) n acc)
        with (if n <? 10 then digitChar (n mod 10) :: acc
              else digitsOf (S fuel) (n / 10) (digitChar (n mod 10) :: acc)).
      rewrite Hlt, He, map_app. simpl. now rewrite <- app_assoc.
Qed.

Lemma numberToString_digits n :
  0 <= n ->
  exists ds,
    ds <> [] /\ Forall is_digit ds /\ digitsValue 10 ds = n
    /\ numberToString n = map digitChar ds.
Proof.
  intros Hn. unfold numberToString.
  destruct (n <? 0) eqn:Hneg; [lia|].
  destruct (digitsOf_spec (Z.to_nat (Z.log2 n)) n []) as (ds & H1 & H2 & H3 & H4).
  - split; [assumption|].
    rewrite Nat2Z.inj_succ, Z2Nat.id by apply Z.log2_nonneg.
    destruct (Z.eq_dec n 0) as [->|Hz]; [reflexivity|].
    apply Z.log2_spec. lia.
  - exists ds. rewrite app_nil_r in H4. auto.
Qed.

Lemma byteLength_bounds s : length s <= byteLength s <= 3 * length s.
Proof.
  unfold length. induction s as [|a s IH]; simpl byteLength; [simpl; lia|].
  rewrite List.length_cons, Nat2Z.inj_succ.
  destruct (nat_of_ascii a <? 128)%nat; lia.
Qed.

Lemma byteLength_ascii s :
  Forall (fun a => (nat_of_ascii a < 128)%nat) s -> byteLength s = length s.
Proof.
  unfold length. induction 1 as [|a s Ha _ IH]; [reflexivity|].
  simpl byteLength. rewrite List.length_cons, Nat2Z.inj_succ, IH.
  apply Nat.ltb_lt in Ha. rewrite Ha. lia.
Qed.

(** X12. For flags and a lifetime that are safe integers (or left out,
    which gives 0) and a value whose byte length is one, the command
    [store] hands to [query] is the verb, the key, the flags, the lifetime
    and the byte length of the value, separated by single spaces, then a
    terminator and the value as it is. The length written is the UTF-8
    length of the value (no less than its length and at most three times
    it, equal to it when all characters are ASCII), and [parseInt] reads
    it back from the command although the value follows it. *)
Theorem store_declares_the_byte_length
    (key value type' : jsstring) (lifetime flags : option Z) :
  safe_integer (match flags with Some f => f | None => 0 end) ->
  safe_integer (match lifetime with Some l => l | None => 0 end) ->
  safe_integer (byteLength value) ->
  fst (Facade.store key value type' lifetime flags)
  = type' ++ str " " ++ key ++ str " "
    ++ numberToString (match flags with Some f => f | None => 0 end) ++ str " "
    ++ numberToString (match lifetime with Some l => l | None => 0 end)
    ++ str " " ++ numberToString (byteLength value) ++ CRLF ++ value
  /\ snd (Facade.store key value type' lifetime flags) = JStr (str "simple")
  /\ parseInt (numberToString (byteLength value) ++ CRLF ++ value)
     = Num (byteLength value)
  /\ length value <= byteLength value <= 3 * length value
  /\ (Forall (fun a => (nat_of_ascii a < 128)%nat) value ->
      byteLength value = length value).
Proof.
  intros _ _ Hsafe. repeat split.
  - unfold Facade.store. cbn [fst join]. now rewrite <- !app_assoc.
  - pose proof (byteLength_bounds value). pose proof (length_nonneg value).
    destruct (numberToString_digits (byteLength value)) as (ds & H1 & H2 & H3 & ->);
      [lia|].
    rewrite parseInt_numeral, H3; try assumption; [reflexivity|].
    rewrite H3. unfold safe_integer in Hsafe. lia.
  - apply byteLength_bounds.
  - apply byteLength_bounds.
  - apply byteLength_ascii.
Qed.

(** X12 at a value of five ASCII characters stored for an hour. *)
Lemma store_witness :
  let command := fst (Facade.set (str "k") (str "hello") (Some 3600) None) in
  (safe_integer 0 /\ safe_integer 3600 /\ safe_integer (byteLength (str "hello")))
  /\ command = str "set k 0 3600 5" ++ CRLF ++ str "hello"
  /\ parseInt (numberToString (byteLength (str "hello")) ++ CRLF ++ str "hello")
     = Num 5.
Proof.
  intros command.
  assert (S0 : safe_integer 0) by (unfold safe_integer; lia).
  assert (S1 : safe_integer 3600) by (unfold safe_integer; lia).
  assert (S2 : safe_integer (byteLength (str "hello")))
    by (unfold safe_integer; simpl; lia).
  split; [auto|].
  destruct (store_declares_the_byte_length (str "k") (str "hello") (str "set")
              (Some 3600) None S0 S1 S2) as (H1 & _ & H3 & _).
  split; [exact H1|exact H3].
Defined.

(** *** The other listeners *)

(** X13. The ['error'] listener rejects every queued request with the
    string ERROR, oldest first and each once, leaves the queue empty,
    sets the handle to null and emits one clienterror event with the
    cause; the buffer is kept. The rejection is the one a reply line
    ERROR of the server gives. *)
Theorem socket_error_fails_every_request_in_order
    (cause : jsstring) (c : Connection) :
  settled (on_error cause c)
  = settled c
    ++ map (fun cb => (callback cb, Rejected (JStr (str "ERROR")))) (callbacks c)
  /\ callbacks (on_error cause c) = []
  /\ handle (on_error cause c) = None
  /\ emitted (on_error cause c) = emitted c ++ [EvClientError cause]
  /\ buffer (on_error cause c) = buffer c
  /\ error_settlement (str "ERROR") = Rejected (JStr (str "ERROR")).
Proof.
  repeat split. simpl. now rewrite drain_rejects.
Qed.

Lemma firstn_succ_skipn (l : list pending) n :
  firstn (S n) l = firstn n l ++ firstn 1 (skipn n l).
Proof.
  revert l. induction n as [|n IH]; intros [|a l]; try reflexivity.
  change (firstn (S (S n)) (a :: l)) with (a :: firstn (S n) l).
  rewrite IH. reflexivity.
Qed.

Lemma skipn_succ_skipn (l : list pending) n :
  skipn (S n) l = skipn 1 (skipn n l).
Proof.
  revert l. induction n as [|n IH]; intros [|a l]; try reflexivity.
  change (skipn (S (S n)) (a :: l)) with (skipn (S n) l).
  now rewrite IH.
Qed.

Lemma on_timeout_step c :
  settled (on_timeout c)
  = settled c
    ++ map (fun cb => (callback cb, Rejected (JStr (str "TIMEOUT"))))
         (firstn 1 (callbacks c))
  /\ callbacks (on_timeout c) = skipn 1 (callbacks c)
  /\ emitted (on_timeout c) = emitted c ++ [EvTimeout]
  /\ handle (on_timeout c) = handle c
  /\ buffer (on_timeout c) = buffer c.
Proof.
  unfold on_timeout, shift_and_call.
  destruct (callbacks c) as [|q rest] eqn:Q; simpl;
    rewrite ?Q, ?app_nil_r; repeat split.
Qed.

(** X14. Timeout events add up: after n of them the n oldest requests
    (all of them, if fewer are queued) have been rejected with TIMEOUT,
    oldest first, the others are still queued in their order, n timeout
    events have been emitted, and handle and buffer are as they were. *)
Theorem timeouts_fail_the_oldest_requests_in_order (n : nat) (c : Connection) :
  settled (timeouts n c)
  = settled c
    ++ map (fun cb => (callback cb, Rejected (JStr (str "TIMEOUT"))))
         (firstn n (callbacks c))
  /\ callbacks (timeouts n c) = skipn n (callbacks c)
  /\ emitted (timeouts n c) = emitted c ++ repeat EvTimeout n
  /\ handle (timeouts n c) = handle c
  /\ buffer (timeouts n c) = buffer c.
Proof.
  induction n as [|n (Hs & Hq & He & Hh & Hb)].
  - unfold timeouts. simpl. now rewrite !app_nil_r.
  - change (timeouts (S n) c) with (on_timeout (timeouts n c)).
    destruct (on_timeout_step (timeouts n c)) as (Ss & Sq & Se & Sh & Sb).
    rewrite Ss, Sq, Se, Sh, Sb, Hs, Hq, He, Hh, Hb.
    rewrite (firstn_succ_skipn (callbacks c) n),
      (skipn_succ_skipn (callbacks c) n), map_app, <- !app_assoc.
    replace (repeat EvTimeout (S n)) with (repeat EvTimeout n ++ [EvTimeout])
      by (rewrite <- repeat_cons; reflexivity).
    repeat split.
Qed.

(** *** [close] *)

(** X15. [close] fails no pending request: queue, settlements and buffer
    are as before. On an open socket it only forgets the handle, so the
    next [connect] opens a new socket, with the requests still pending in
    the queue; on a socket in another state it does nothing. *)
Theorem close_keeps_requests_pending
    (readyState : jsstring) (c : Connection) (h : Socket) :
  handle c = Some h ->
  callbacks (close readyState c) = callbacks c
  /\ settled (close readyState c) = settled c
  /\ buffer (close readyState c) = buffer c
  /\ (readyState <> str "open" -> close readyState c = c)
  /\ (readyState = str "open" ->
      handle (close readyState c) = None
      /\ handle (connect (close readyState c))
         = Some (createConnection (port c) JUndefined)
      /\ callbacks (connect (close readyState c)) = callbacks c
      /\ buffer (connect (close readyState c)) = buffer c).
Proof.
  intros Hh. unfold close. rewrite Hh.
  destruct (list_eq_dec ascii_dec readyState (str "open")) as [E|E].
  - repeat split; try reflexivity. contradiction.
  - repeat split; try reflexivity; contradiction.
Qed.

(** X15 at an open connection with a get pending. *)
Lemma close_witness :
  let c := receiving [] [pending_get 0] in
  let h := createConnection 11211 JUndefined in
  handle c = Some h
  /\ callbacks (close (str "open") c) = callbacks c
  /\ settled (close (str "open") c) = settled c
  /\ buffer (close (str "open") c) = buffer c
  /\ (str "open" <> str "open" -> close (str "open") c = c)
  /\ (str "open" = str "open" ->
      handle (close (str "open") c) = None
      /\ handle (connect (close (str "open") c))
         = Some (createConnection (port c) JUndefined)
      /\ callbacks (connect (close (str "open") c)) = callbacks c
      /\ buffer (connect (close (str "open") c)) = buffer c).
Proof.
  intros c h. split; [reflexivity|].
  apply (close_keeps_requests_pending (str "open") c h).
  reflexivity.
Defined.

(** *** A get reply without length field *)

Lemma substr_to_end s r : substr (s ++ r) (length s) (Inf true) = r.
Proof.
  unfold substr, clamp, toInteger.
  pose proof (length_nonneg s). pose proof (length_nonneg r).
  rewrite length_app.
  destruct (length s <? 0) eqn:E; [lia|].
  replace (Z.min (length s) (length s + length r)) with (length s) by lia.
  replace (Z.min (length s + (length s + length r)) (length s + length r))
    with (length s + length r) by lia.
  unfold length. rewrite Nat2Z.id.
  rewrite skipn_app, skipn_all, Nat.sub_diag. simpl.
  apply firstn_all2. lia.
Qed.

Lemma substring_NaN s : substring s NaN = s.
Proof.
  unfold substring, clamp, toInteger. pose proof (length_nonneg s).
  now replace (Z.min (Z.max 0 0) (length s)) with 0 by lia.
Qed.

(** X16. For a get request at the head of the queue and a buffer without
    error message whose first line has fewer than four fields separated
    by spaces, when the buffer neither begins with END nor begins with
    VALUE and contains END: the turn resolves the request with everything
    behind the first line, consumes nothing (the position computed is
    NaN) and takes the request off the queue. *)
Theorem get_reply_without_length_field
    (c : Connection) (q : pending) (queue : list pending)
    (line rest : jsstring) :
  callbacks c = q :: queue -> type q = JStr (str "get") ->
  buffer c = line ++ CRLF ++ rest ->
  indexOf (line ++ CRLF) CRLF = length line ->
  has_error (buffer c) = false ->
  indexOf (buffer c) (str "END") <> 0 ->
  (indexOf (buffer c) (str "VALUE") =? 0)
  && (indexOf (buffer c) (str "END") >? -1) = false ->
  nth_error (split (line ++ CRLF) " ") 3 = None ->
  getHandleResult (callbacks c) (buffer c) = RArr (JStr rest) NaN JUndefined
  /\ handleData_turn c
     = Continue (advance c (buffer c) queue [(callback q, Resolved (JStr rest))]).
Proof.
  intros Hq Ht Hb Hl He Hend Hval Hf.
  pose proof (length_nonneg line).
  assert (Hc : indexOf (buffer c) CRLF = length line).
  { rewrite Hb. now apply first_line. }
  assert (R : getHandleResult (callbacks c) (buffer c)
              = RArr (JStr rest) NaN JUndefined).
  { rewrite Hq.
    assert (Hn : indexOf (buffer c) CRLF <> -1) by lia.
    rewrite (getHandleResult_dispatch _ _ _ _ Hn He Ht) by discriminate.
    rewrite dispatch_get. unfold handleGet.
    apply Z.eqb_neq in Hend. rewrite Hend, Hval, Hc.
    change CRLF_LENGTH with 2.
    replace (length line + 2) with (length (line ++ CRLF))
      by (rewrite length_app; reflexivity).
    rewrite Hb, app_assoc, !substr_prefix, Hf.
    change (lengthArg None) with (Inf true).
    rewrite substr_to_end. reflexivity. }
  split; [exact R|].
  unfold handleData_turn. rewrite R. cbn [gt].
  rewrite substring_NaN.
  unfold shift_and_call, with_buffer, advance. simpl.
  now rewrite Hq.
Qed.

(** X16 at a first line of one field. *)
Lemma get_reply_without_length_field_witness :
  let c := receiving (str "x" ++ CRLF ++ str "abc") [pending_get 0; pending_get 1] in
  (callbacks c = [pending_get 0; pending_get 1]
   /\ type (pending_get 0) = JStr (str "get")
   /\ buffer c = str "x" ++ CRLF ++ str "abc"
   /\ indexOf (str "x" ++ CRLF) CRLF = length (str "x")
   /\ has_error (buffer c) = false
   /\ indexOf (buffer c) (str "END") <> 0
   /\ (indexOf (buffer c) (str "VALUE") =? 0)
      && (indexOf (buffer c) (str "END") >? -1) = false
   /\ nth_error (split (str "x" ++ CRLF) " ") 3 = None)
  /\ getHandleResult (callbacks c) (buffer c)
     = RArr (JStr (str "abc")) NaN JUndefined
  /\ handleData_turn c
     = Continue (advance c (buffer c) [pending_get 1]
                   [(0%nat, Resolved (JStr (str "abc")))]).
Proof.
  intros c.
  assert (H6 : indexOf (buffer c) (str "END") <> 0)
    by (vm_compute; discriminate).
  split; [repeat split; try assumption; vm_compute; reflexivity|].
  apply (get_reply_without_length_field c (pending_get 0) [pending_get 1]
           (str "x") (str "abc"));
    try assumption; vm_compute; reflexivity.
Defined.

(** *** Lines in front of an error message *)

Lemma lines_text_cons line lines :
  lines_text (line :: lines) = line ++ CRLF ++ lines_text lines.
Proof. unfold lines_text, stream. simpl. now rewrite <- app_assoc. Qed.

Lemma lines_text_last lines last :
  has_error (last ++ CRLF) = true ->
  has_error (lines_text (lines ++ [last])) = true.
Proof.
  intros H. unfold lines_text, stream.
  rewrite map_app, flat_map_app. apply has_error_behind.
  simpl. now rewrite app_nil_r.
Qed.

Lemma shift_and_call_advance c b line :
  shift_and_call (with_buffer c b) (JStr line) JNull
  = advance c b (skipn 1 (callbacks c)) (error_settlements (callbacks c) [line]).
Proof.
  unfold shift_and_call, with_buffer, advance. simpl.
  destruct (callbacks c) as [|q queue] eqn:Q; simpl.
  - now rewrite app_nil_r.
  - now destruct queue.
Qed.

Lemma error_settlements_cons queue line lines :
  error_settlements queue (line :: lines)
  = error_settlements queue [line]
    ++ error_settlements (skipn 1 queue) lines.
Proof. destruct queue as [|q queue]; simpl; [reflexivity|]. now destruct queue. Qed.

Lemma skipn_skipn_one (l : list pending) n :
  skipn n (skipn 1 l) = skipn (S n) l.
Proof. destruct l; [now destruct n | reflexivity]. Qed.

(** X17. When the buffer holds complete lines only and the last of them
    carries an error message, [handleData] takes every line for an error
    reply, whatever the types of the queued requests: the buffer is
    emptied, the i-th line settles the i-th request, requests beyond the
    lines stay queued and lines beyond the requests are dropped. *)
Theorem lines_before_an_error_are_taken_as_errors lines : forall last c,
  forallb framed (map Line (lines ++ [last])) = true ->
  has_error (last ++ CRLF) = true ->
  buffer c = lines_text (lines ++ [last]) ->
  handleData c
  = Done (advance c [] (skipn (List.length (lines ++ [last])) (callbacks c))
            (error_settlements (callbacks c) (lines ++ [last]))).
Proof.
  induction lines as [|line lines IH]; intros last c Hf He Hb.
  - simpl app in *. rewrite lines_text_cons in Hb.
    simpl in Hf. apply andb_true_iff in Hf as [Hl _]. apply Z.eqb_eq in Hl.
    assert (E : has_error (buffer c) = true).
    { rewrite Hb, app_assoc. now apply has_error_ahead. }
    assert (N : buffer c <> []) by (rewrite Hb; now destruct last).
    pose proof (error_turn c last _ Hb Hl E) as T.
    rewrite (handleData_continue _ _ N T), shift_and_call_advance.
    now rewrite handleData_empty by reflexivity.
  - change ((line :: lines) ++ [last]) with (line :: (lines ++ [last])) in *.
    rewrite lines_text_cons in Hb.
    cbn [map forallb] in Hf. apply andb_true_iff in Hf as [Hl Hf].
    simpl in Hl. apply Z.eqb_eq in Hl.
    assert (E : has_error (buffer c) = true).
    { rewrite Hb, app_assoc. apply has_error_behind.
      now apply lines_text_last. }
    assert (N : buffer c <> []) by (rewrite Hb; now destruct line).
    pose proof (error_turn c line _ Hb Hl E) as T.
    rewrite (handleData_continue _ _ N T), shift_and_call_advance.
    rewrite (IH last (advance c (lines_text (lines ++ [last])) _ _) Hf He
               eq_refl), advance_advance.
    cbn [callbacks advance List.length].
    now rewrite skipn_skipn_one, <- error_settlements_cons.
Qed.

(** X17 at a get and a delete answered with two status lines and
    NOT_FOUND in one data event. *)
Lemma lines_before_an_error_witness :
  let lines := [str "STORED"; str "hello"] in
  let last := str "NOT_FOUND" in
  let c := receiving (lines_text (lines ++ [last]))
             [pending_get 0; pending_simple 1] in
  (forallb framed (map Line (lines ++ [last])) = true
   /\ has_error (last ++ CRLF) = true
   /\ buffer c = lines_text (lines ++ [last]))
  /\ handleData c
     = Done (advance c [] []
               [(0%nat, Rejected (JStr (str "STORED")));
                (1%nat, Rejected (JStr (str "hello")))]).
Proof.
  intros lines last c.
  split; [repeat split; vm_compute; reflexivity|].
  rewrite (lines_before_an_error_are_taken_as_errors lines last c);
    vm_compute; reflexivity.
Defined.
